(** * Manhattan neighbourhood counting: a shallow embedding of [src/manhattan.py]

    The Python module counts the cells of a two-dimensional grid that lie
    within a Manhattan (L1) radius of some strictly positive cell, with the
    grid optionally read as a torus.  Python sets of coordinate pairs are
    modelled by [gset (Z * Z)], Python integers by [Z], the numpy array by
    its shape and its row-major buffer, and a raised exception by the left
    summand of [exn + _]. *)

From stdpp Require Import gmap sets list strings sorting.
From Stdlib Require Import ZArith Lia.

Local Open Scope Z_scope.

(** ** Data model *)

(** A coordinate is a pair of Python integers, compared by value. *)
Abbreviation coord := (Z * Z)%type.

(** A numpy array: its [shape] tuple and its C-contiguous (row-major) buffer.
    Cell values are integers; only their comparison with zero is observed. *)
Record ndarray : Type := mk_ndarray {
  shape : list nat;
  data : list Z
}.

(** The buffer holds exactly as many cells as the shape announces. *)
Definition wf_ndarray (X : ndarray) : Prop :=
  length (data X) = foldr Nat.mul 1%nat (shape X).

Global Instance wf_ndarray_dec X : Decision (wf_ndarray X).
Proof. unfold wf_ndarray. apply _. Defined.

(** The exceptions the module can meet: the explicit [ValueError] of the
    shape check, and the [TypeError] that [functools.reduce] raises on an
    empty sequence without an initial value. *)
Inductive exn : Type :=
  | ValueError (msg : string)
  | TypeError (msg : string).

Definition is_error {A} (r : exn + A) : Prop :=
  match r with inl _ => True | inr _ => False end.

(** [X[i, j]] for a two-dimensional array whose second axis has extent [w]. *)
Definition item (X : ndarray) (w i j : nat) : Z :=
  nth (i * w + j)%nat (data X) 0.

(** Python's [range(lo, hi)]: empty as soon as [hi <= lo]. *)
Definition range (lo hi : Z) : list Z :=
  (λ k : nat, lo + Z.of_nat k) <$> seq 0 (Z.to_nat (hi - lo)).

(** The remainder on numpy integer scalars: the sign follows the divisor, and
    a zero divisor yields zero (with a warning, not an exception). *)
Definition np_mod (a m : Z) : Z :=
  if bool_decide (m = 0) then 0 else a `mod` m.

(** [functools.reduce(f, l)] without an initial value. *)
Definition reduce {A} (f : A → A → A) (l : list A) : exn + A :=
  match l with
  | [] => inl (TypeError "reduce() of empty iterable with no initial value")
  | a :: l' => inr (foldl f a l')
  end.

(** ** [array_to_pos_center_coordinates]

    [np.nonzero(X > 0)] lists the indices of the positive cells in row-major
    order, one index array per axis, and [zip] pairs them up.  Only the
    two-dimensional case produces pairs; the caller rejects every other rank
    before it gets here. *)
Definition array_to_pos_center_coordinates (X : ndarray) : list coord :=
  match shape X with
  | [h; w] =>
      i ← seq 0 h;
      (λ j : nat, (Z.of_nat i, Z.of_nat j)) <$>
        filter (λ j : nat, 0 < item X w i j) (seq 0 w)
  | _ => []
  end.

(** ** [manhattan_neighborhood] *)

(** The four reflections added by one [neighborhood.update([...])]. *)
Definition reflections (x y d_x d_y : Z) : list coord :=
  [ (x + d_x, y + d_y);
    (x - d_x, y + d_y);
    (x + d_x, y - d_y);
    (x - d_x, y - d_y) ].

(** The two nested [for] loops over the upper right quadrant, threading the
    growing set [neighborhood]. *)
Definition scan_quadrant (x y radius : Z) : gset coord :=
  foldl (λ neighborhood d_x,
    foldl (λ neighborhood d_y,
      if bool_decide (d_x + d_y ≤ radius ∧ 0 < d_x + d_y)
      then neighborhood ∪ list_to_set (reflections x y d_x d_y)
      else neighborhood)
    neighborhood (range 0 (radius + 1)))
  ∅ (range 0 (radius + 1)).

(** The bounds test of the pruning comprehension. *)
Definition in_bounds (x_max y_max : Z) (p : coord) : Prop :=
  (0 ≤ p.1 ∧ p.1 ≤ x_max) ∧ (0 ≤ p.2 ∧ p.2 ≤ y_max).

Global Instance in_bounds_dec x_max y_max p : Decision (in_bounds x_max y_max p).
Proof. unfold in_bounds. apply _. Defined.

(** The defaults of [prune_wraparound] and [size] are never relied upon by
    the module: its only caller passes both. *)
Definition manhattan_neighborhood
    (coor : coord) (radius : Z) (prune_wraparound : bool) (size : Z * Z)
    : gset coord :=
  let '(x, y) := coor in
  let neighborhood := scan_quadrant x y radius in
  if prune_wraparound then
    let x_max := size.1 - 1 in
    let y_max := size.2 - 1 in
    filter (in_bounds x_max y_max) neighborhood
  else neighborhood.

(** ** [count_positive_neighborhood_size] *)

(** Lines 99-110: the union of the per-center neighbourhoods, in the order of
    [positive_centers], with the centers added back. *)
Definition all_neighbors
    (positive_centers : list coord) (radius : Z) (wraparound : bool)
    (d : nat * nat) : exn + gset coord :=
  match
    reduce (∪)
      ((λ center,
          manhattan_neighborhood center radius (negb wraparound)
            (Z.of_nat d.1, Z.of_nat d.2)) <$> positive_centers)
  with
  | inl e => inl e
  | inr s => inr (s ∪ list_to_set positive_centers)
  end.

(** The toroidal folding of one coordinate. *)
Definition fold_coord (x_max y_max : Z) (p : coord) : coord :=
  (np_mod p.1 x_max, np_mod p.2 y_max).

(** Lines 94-120: everything after the centers have been extracted. *)
Definition count_from_centers
    (positive_centers : list coord) (radius : Z) (wraparound : bool)
    (d : nat * nat) : exn + nat :=
  if bool_decide (length positive_centers = 0%nat) then inr 0%nat
  else
    match all_neighbors positive_centers radius wraparound d with
    | inl e => inl e
    | inr s =>
        let x_max := Z.of_nat d.1 in
        let y_max := Z.of_nat d.2 in
        let s' : gset coord :=
          if wraparound then set_map (fold_coord x_max y_max) s else s in
        inr (size s')
    end.

(** The entry point; [wraparound] defaults to [false] in the source. *)
Definition count_positive_neighborhood_size
    (X : ndarray) (radius : Z) (wraparound : bool) : exn + nat :=
  match shape X with
  | [d0; d1] =>
      count_from_centers (array_to_pos_center_coordinates X)
        radius wraparound (d0, d1)
  | _ => inl (ValueError "X must be a 2-dimensional array")
  end.

(** ** The test helper [centers_to_array]

    [np.zeros((height, width))] with a one stored at every listed center.
    The centers are expected in range, as in every test of the repository:
    beyond it numpy raises [IndexError], whereas the list update used here
    leaves the buffer as it is. *)
Definition centers_to_array (centers : list (nat * nat)) (width height : nat)
    : ndarray :=
  mk_ndarray [height; width]
    (foldl (λ buf c, <[(c.1 * width + c.2)%nat := 1]> buf)
       (replicate (height * width) 0) centers).

(** ** Notions used to state the properties *)

(** The number of strictly positive cells of an array. *)
Definition count_positive (X : ndarray) : nat :=
  length (filter (λ v, 0 < v) (data X)).

(** The Manhattan (L1) distance between two coordinates. *)
Definition manhattan_distance (p q : coord) : Z :=
  Z.abs (p.1 - q.1) + Z.abs (p.2 - q.2).

(** The coordinates that [all_neighbors] is meant to collect: the centers
    and every point of some center's neighbourhood. *)
Definition covered (cs : list coord) (radius : Z) (wraparound : bool)
    (d : nat * nat) (p : coord) : Prop :=
  p ∈ cs ∨
  ∃ c, c ∈ cs ∧
       p ∈ manhattan_neighborhood c radius (negb wraparound)
             (Z.of_nat d.1, Z.of_nat d.2).

(** All the cells of a grid with [h] rows and [w] columns. *)
Definition grid_cells (h w : nat) : list coord :=
  i ← seq 0 h; (λ j : nat, (Z.of_nat i, Z.of_nat j)) <$> seq 0 w.

(** numpy's [X.T] for a two-dimensional array, as a fresh row-major buffer.
    Arrays of another rank, which the entry point rejects, are left alone. *)
Definition transpose (X : ndarray) : ndarray :=
  match shape X with
  | [h; w] =>
      mk_ndarray [w; h] (j ← seq 0 w; (λ i : nat, item X w i j) <$> seq 0 h)
  | _ => X
  end.

(** Transposition of one coordinate. *)
Definition swap_coord (p : coord) : coord := (p.2, p.1).

(** The cells that end up counted: the covered coordinates, folded onto the
    torus when wraparound is requested. *)
Definition counted (cs : list coord) (radius : Z) (wraparound : bool)
    (d : nat * nat) (p : coord) : Prop :=
  if wraparound
  then ∃ q, covered cs radius true d q ∧
            p = fold_coord (Z.of_nat d.1) (Z.of_nat d.2) q
  else covered cs radius false d p.

(** Row-major (lexicographic) order on coordinates. *)
Definition row_major_lt (p q : coord) : Prop :=
  p.1 < q.1 ∨ (p.1 = q.1 ∧ p.2 < q.2).

(** The points at Manhattan distance exactly [r] from [c], one per step and
    per quadrant. *)
Definition sphere_points (c : coord) (r : nat) : list coord :=
  k ← seq 0 r;
  [ (c.1 + Z.of_nat k, c.2 + (Z.of_nat r - Z.of_nat k));
    (c.1 + (Z.of_nat r - Z.of_nat k), c.2 - Z.of_nat k);
    (c.1 - Z.of_nat k, c.2 - (Z.of_nat r - Z.of_nat k));
    (c.1 - (Z.of_nat r - Z.of_nat k), c.2 + Z.of_nat k) ].

(** Small grids on which the statements below are exercised. *)
Definition sample_grid : ndarray := mk_ndarray [2; 3]%nat [0; 4; 1; -2; 0; 9].
Definition sparse_grid : ndarray := mk_ndarray [2; 3]%nat [0; 4; 0; 0; 0; 9].
Definition strip_grid : ndarray := mk_ndarray [1; 3]%nat [0; 4; 0].
Definition dark_grid : ndarray := mk_ndarray [2; 3]%nat [0; -1; 0; 0; -7; 0].
Definition corner_grid : ndarray :=
  mk_ndarray [3; 3]%nat [0; 0; 5; 0; 0; 0; 0; 2; 0].
Definition gray_grid : ndarray := mk_ndarray [2; 3]%nat [-3; 1; 7; 0; -1; 2].
Definition hollow_grid : ndarray := mk_ndarray [0; 4]%nat [].
Definition pair_grid : ndarray :=
  mk_ndarray [3; 7]%nat
    [0; 0; 0; 0; 0; 0; 0;  0; 3; 0; 0; 0; 8; 0;  0; 0; 0; 0; 0; 0; 0].
Definition lone_grid : ndarray :=
  mk_ndarray [5; 5]%nat
    [0; 0; 0; 0; 0;  0; 0; 0; 0; 0;  0; 0; 6; 0; 0;
     0; 0; 0; 0; 0;  0; 0; 0; 0; 0].

(** ** The repository's tests, replayed on the embedding *)

Example test_example_1 :
  count_positive_neighborhood_size
    (centers_to_array [(5, 5)]%nat 11 11) 3 false = inr 25%nat.
Proof. vm_compute. reflexivity. Qed.

Example test_example_2 :
  count_positive_neighborhood_size
    (centers_to_array [(5, 1)]%nat 11 11) 3 false = inr 21%nat.
Proof. vm_compute. reflexivity. Qed.

Example test_example_3 :
  count_positive_neighborhood_size
    (centers_to_array [(7, 3); (3, 7)]%nat 11 11) 2 false = inr 26%nat.
Proof. vm_compute. reflexivity. Qed.

Example test_example_4 :
  count_positive_neighborhood_size
    (centers_to_array [(7, 3); (6, 5)]%nat 11 11) 2 false = inr 22%nat.
Proof. vm_compute. reflexivity. Qed.

Example test_warning_1b :
  count_positive_neighborhood_size
    (centers_to_array [(0, 0); (1, 1)]%nat 11 11) 3 false = inr 17%nat.
Proof. vm_compute. reflexivity. Qed.

Example test_warning_2b :
  count_positive_neighborhood_size
    (centers_to_array [(10, 2); (10, 3); (10, 4)]%nat 11 11) 3 false
  = inr 23%nat.
Proof. vm_compute. reflexivity. Qed.

Example test_warning_3b :
  count_positive_neighborhood_size
    (centers_to_array [(0, 0); (0, 10); (10, 0); (10, 10)]%nat 11 11) 3 false
  = inr 40%nat.
Proof. vm_compute. reflexivity. Qed.

Example test_warning_4a :
  count_positive_neighborhood_size
    (centers_to_array [(0, 5)]%nat 21 1) 3 false = inr 7%nat.
Proof. vm_compute. reflexivity. Qed.

Example test_warning_4b :
  count_positive_neighborhood_size
    (centers_to_array [(0, 0)]%nat 1 1) 2 false = inr 1%nat.
Proof. vm_compute. reflexivity. Qed.

Example test_warning_4c :
  count_positive_neighborhood_size
    (centers_to_array [(3, 0)]%nat 1 10) 2 false = inr 5%nat.
Proof. vm_compute. reflexivity. Qed.

Example test_warning_4d :
  count_positive_neighborhood_size
    (centers_to_array [(1, 1)]%nat 2 2) 2 false = inr 4%nat.
Proof. vm_compute. reflexivity. Qed.

Example test_warning_6a :
  count_positive_neighborhood_size (centers_to_array [] 11 11) 3 false
  = inr 0%nat.
Proof. vm_compute. reflexivity. Qed.

Example test_radius_zero :
  count_positive_neighborhood_size
    (centers_to_array [(2, 1); (7, 4)]%nat 11 11) 0 false = inr 2%nat.
Proof. vm_compute. reflexivity. Qed.

(** A one-dimensional array is rejected, whatever it holds. *)
Example rank_one_rejected :
  count_positive_neighborhood_size (mk_ndarray [3]%nat [1; 0; 2]) 1 false
  = inl (ValueError "X must be a 2-dimensional array").
Proof. reflexivity. Qed.

(** Folding can merge coordinates: thirteen unfolded ones, three cells. *)
Example strip_grid_folds :
  match all_neighbors (array_to_pos_center_coordinates strip_grid)
          2 true (1, 3)%nat with
  | inr unfolded => size unfolded = 13%nat
  | inl _ => False
  end ∧
  count_positive_neighborhood_size strip_grid 2 true = inr 3%nat.
Proof. vm_compute. split; reflexivity. Qed.

(** ** Basic facts about the building blocks *)

Lemma elem_of_range lo hi z : z ∈ range lo hi ↔ lo ≤ z ∧ z < hi.
Proof.
  unfold range. rewrite list_elem_of_fmap. split.
  - intros (k & -> & Hk). apply elem_of_seq in Hk. lia.
  - intros [H1 H2]. exists (Z.to_nat (z - lo)). split; [lia|].
    apply elem_of_seq. lia.
Qed.

Section loops.
Context {A : Type} (cond : A → Prop) {cond_dec : ∀ a, Decision (cond a)}.
Context (body : A → gset coord).

(** A [for] loop that conditionally updates a set adds exactly the bodies
    of the iterations whose guard holds. *)
Lemma elem_of_foldl_guarded (l : list A) (acc : gset coord) (p : coord) :
  p ∈ foldl (λ s a, if bool_decide (cond a) then s ∪ body a else s) acc l
  ↔ p ∈ acc ∨ ∃ a, a ∈ l ∧ cond a ∧ p ∈ body a.
Proof.
  revert acc. induction l as [|a l IH]; intros acc; simpl.
  - split; [by left|]. intros [H|(a & Ha & _)]; [done|]. by inversion Ha.
  - rewrite IH. case_bool_decide as Hc.
    + rewrite elem_of_union. split.
      * intros [[H|H]|(b & Hb & Hcb & Hp)]; [by left| |].
        -- right. exists a. split; [left|done].
        -- right. exists b. split; [by right|done].
      * intros [H|(b & Hb & Hcb & Hp)]; [by left; left|].
        apply elem_of_cons in Hb as [->|Hb]; [by left; right|].
        right. by exists b.
    + split.
      * intros [H|(b & Hb & Hcb & Hp)]; [by left|].
        right. exists b. split; [by right|done].
      * intros [H|(b & Hb & Hcb & Hp)]; [by left|].
        apply elem_of_cons in Hb as [->|Hb]; [done|].
        right. by exists b.
Qed.
End loops.

(** A loop whose body is itself a loop over the same accumulator. *)
Lemma elem_of_foldl_nested {A} (inner : gset coord → A → gset coord)
    (body : A → gset coord) (l : list A) (acc : gset coord) (p : coord) :
  (∀ s a q, q ∈ inner s a ↔ q ∈ s ∨ q ∈ body a) →
  p ∈ foldl inner acc l ↔ p ∈ acc ∨ ∃ a, a ∈ l ∧ p ∈ body a.
Proof.
  intros Hin. revert acc. induction l as [|a l IH]; intros acc; simpl.
  - split; [by left|]. intros [H|(a & Ha & _)]; [done|]. by inversion Ha.
  - rewrite IH, Hin. split.
    + intros [[H|H]|(b & Hb & Hp)]; [by left| |].
      * right. exists a. split; [left|done].
      * right. exists b. split; [by right|done].
    + intros [H|(b & Hb & Hp)]; [by left; left|].
      apply elem_of_cons in Hb as [->|Hb]; [by left; right|].
      right. by exists b.
Qed.

Lemma elem_of_reflections x y d_x d_y (p : coord) :
  p ∈ reflections x y d_x d_y ↔
  (p.1 = x + d_x ∨ p.1 = x - d_x) ∧ (p.2 = y + d_y ∨ p.2 = y - d_y).
Proof.
  unfold reflections. destruct p as [a b]; simpl.
  rewrite !elem_of_cons, elem_of_nil. split.
  - intros [H|[H|[H|[H|[]]]]]; inversion H; subst; lia.
  - intros [[->| ->] [->| ->]]; tauto.
Qed.

(** The offsets visited by the quadrant scan whose guard holds. *)
Lemma elem_of_scan_quadrant_offsets x y radius (p : coord) :
  p ∈ scan_quadrant x y radius ↔
  ∃ d_x d_y, (0 ≤ d_x ∧ d_x ≤ radius) ∧ (0 ≤ d_y ∧ d_y ≤ radius) ∧
             (d_x + d_y ≤ radius ∧ 0 < d_x + d_y) ∧
             p ∈ reflections x y d_x d_y.
Proof.
  unfold scan_quadrant.
  rewrite (elem_of_foldl_nested _
    (λ d_x, foldl (λ neighborhood d_y,
       if bool_decide (d_x + d_y ≤ radius ∧ 0 < d_x + d_y)
       then neighborhood ∪ list_to_set (reflections x y d_x d_y)
       else neighborhood) ∅ (range 0 (radius + 1)))).
  - split.
    + intros [H|(d_x & Hx & H)]; [set_solver|].
      apply (elem_of_foldl_guarded
               (λ d_y, d_x + d_y ≤ radius ∧ 0 < d_x + d_y)
               (λ d_y, list_to_set (reflections x y d_x d_y))) in H.
      destruct H as [H|(d_y & Hy & Hc & H)]; [set_solver|].
      apply elem_of_range in Hx, Hy. apply elem_of_list_to_set in H.
      exists d_x, d_y. repeat split; try lia; done.
    + intros (d_x & d_y & Hx & Hy & Hc & H). right. exists d_x.
      split; [apply elem_of_range; lia|].
      apply (elem_of_foldl_guarded
               (λ d_y, d_x + d_y ≤ radius ∧ 0 < d_x + d_y)
               (λ d_y, list_to_set (reflections x y d_x d_y))).
      right. exists d_y. split; [apply elem_of_range; lia|].
      split; [done|]. by apply elem_of_list_to_set.
  - intros s d_x q.
    rewrite !(elem_of_foldl_guarded
               (λ d_y, d_x + d_y ≤ radius ∧ 0 < d_x + d_y)
               (λ d_y, list_to_set (reflections x y d_x d_y))).
    rewrite elem_of_empty. tauto.
Qed.

(** The quadrant scan builds the punctured L1 ball, whatever the radius. *)
Lemma elem_of_scan_quadrant x y radius (p : coord) :
  p ∈ scan_quadrant x y radius ↔
  0 < manhattan_distance p (x, y) ∧ manhattan_distance p (x, y) ≤ radius.
Proof.
  rewrite elem_of_scan_quadrant_offsets. unfold manhattan_distance; simpl.
  split.
  - intros (d_x & d_y & Hx & Hy & Hc & H).
    apply elem_of_reflections in H. lia.
  - intros [H1 H2]. exists (Z.abs (p.1 - x)), (Z.abs (p.2 - y)).
    rewrite elem_of_reflections. lia.
Qed.

Lemma elem_of_manhattan_neighborhood c radius prune size (p : coord) :
  p ∈ manhattan_neighborhood c radius prune size ↔
  (0 < manhattan_distance p c ∧ manhattan_distance p c ≤ radius) ∧
  (prune = true → in_bounds (size.1 - 1) (size.2 - 1) p).
Proof.
  unfold manhattan_neighborhood. destruct c as [x y], prune; simpl.
  - rewrite elem_of_filter, elem_of_scan_quadrant. tauto.
  - rewrite elem_of_scan_quadrant. split; [intros H; split; [done|done]|tauto].
Qed.

(** ** The positive centers *)

Section centers.
Context (X : ndarray) (h w : nat).
Hypothesis Hshape : shape X = [h; w].

Lemma elem_of_centers (p : coord) :
  p ∈ array_to_pos_center_coordinates X ↔
  ∃ i j : nat, p = (Z.of_nat i, Z.of_nat j) ∧
               (i < h)%nat ∧ (j < w)%nat ∧ 0 < item X w i j.
Proof.
  unfold array_to_pos_center_coordinates. rewrite Hshape.
  rewrite list_elem_of_bind. split.
  - intros (i & Hp & Hi). apply list_elem_of_fmap in Hp as (j & -> & Hj).
    apply list_elem_of_filter in Hj as [Hpos Hj].
    apply elem_of_seq in Hi, Hj. exists i, j. repeat split; [lia|lia|done].
  - intros (i & j & -> & Hi & Hj & Hpos). exists i.
    split; [|apply elem_of_seq; lia].
    apply list_elem_of_fmap. exists j. split; [done|].
    apply list_elem_of_filter. split; [done|apply elem_of_seq; lia].
Qed.

(** Every positive cell is listed once. *)
Lemma NoDup_centers : NoDup (array_to_pos_center_coordinates X).
Proof.
  unfold array_to_pos_center_coordinates. rewrite Hshape.
  apply NoDup_bind.
  - intros i1 i2 p _ _ H1 H2.
    apply list_elem_of_fmap in H1 as (j1 & -> & _).
    apply list_elem_of_fmap in H2 as (j2 & Heq & _).
    inversion Heq. lia.
  - intros i _. apply NoDup_fmap_2_strong.
    + intros j1 j2 _ _ Heq. inversion Heq. lia.
    + apply NoDup_filter, NoDup_seq.
  - apply NoDup_seq.
Qed.

(** Centers lie inside the grid. *)
Lemma centers_in_bounds (p : coord) :
  p ∈ array_to_pos_center_coordinates X →
  in_bounds (Z.of_nat h - 1) (Z.of_nat w - 1) p.
Proof.
  intros (i & j & -> & Hi & Hj & _)%elem_of_centers.
  unfold in_bounds; simpl. lia.
Qed.
End centers.

(** Counting the positive entries of one row through its indices. *)
Lemma row_count (r buf : list Z) (c s : nat) :
  (∀ k, (k < length r)%nat → nth (c + (s + k)) buf 0 = nth k r 0) →
  length (filter (λ j : nat, 0 < nth (c + j) buf 0) (seq s (length r))) =
  length (filter (λ v, 0 < v) r).
Proof.
  revert s. induction r as [|a r IH]; intros s Hnth; [done|].
  simpl length at 1. simpl seq.
  assert (Ha : nth (c + s) buf 0 = a).
  { specialize (Hnth 0%nat). simpl in Hnth.
    rewrite Nat.add_0_r in Hnth. apply Hnth. lia. }
  assert (Hrest : ∀ k, (k < length r)%nat →
                       nth (c + (S s + k)) buf 0 = nth k r 0).
  { intros k Hk. specialize (Hnth (S k)). simpl in Hnth.
    rewrite <- Hnth by lia. f_equal. lia. }
  rewrite !filter_cons, Ha. destruct (decide (0 < a)); simpl;
    rewrite (IH _ Hrest); done.
Qed.

(** The row-major scan finds as many centers as the buffer has positive
    entries. *)
Lemma length_scan (w : nat) (h off : nat) (pre d : list Z) :
  length pre = (off * w)%nat → length d = (h * w)%nat →
  length (i ← seq off h;
          (λ j : nat, (Z.of_nat i, Z.of_nat j)) <$>
            filter (λ j : nat, 0 < nth (i * w + j) (pre ++ d) 0) (seq 0 w)) =
  length (filter (λ v, 0 < v) d).
Proof.
  revert off pre d. induction h as [|h IH]; intros off pre d Hpre Hd.
  - destruct d; [done|simpl in Hd; lia].
  - simpl seq. rewrite bind_cons, length_app, length_fmap.
    assert (Hsplit : filter (λ v, 0 < v) d =
                     filter (λ v, 0 < v) (take w d) ++
                     filter (λ v, 0 < v) (drop w d))
      by (by rewrite <- filter_app, take_drop).
    rewrite Hsplit, length_app.
    assert (Htake : length (take w d) = w) by (rewrite length_take; lia).
    f_equal.
    + pose proof (row_count (take w d) (pre ++ d) (off * w) 0) as Hrow.
      rewrite Htake in Hrow. apply Hrow. intros k Hk.
      rewrite Nat.add_0_l, <- Hpre, app_nth2_plus.
      unfold take. rewrite nth_firstn.
      apply Nat.ltb_lt in Hk. by rewrite Hk.
    + rewrite <- (IH (S off) (pre ++ take w d) (drop w d)).
      * by rewrite <- app_assoc, take_drop.
      * rewrite length_app, Htake. lia.
      * rewrite length_drop. lia.
Qed.

Lemma length_centers (X : ndarray) (h w : nat) :
  shape X = [h; w] → wf_ndarray X →
  length (array_to_pos_center_coordinates X) = count_positive X.
Proof.
  intros Hshape Hwf. unfold array_to_pos_center_coordinates, count_positive.
  rewrite Hshape. unfold item.
  apply (length_scan w h 0 [] (data X)); [done|].
  unfold wf_ndarray in Hwf. rewrite Hshape in Hwf. simpl in Hwf. lia.
Qed.

Lemma centers_nil_of_nonpositive (X : ndarray) :
  Forall (λ v, v ≤ 0) (data X) → array_to_pos_center_coordinates X = [].
Proof.
  intros Hall. destruct (array_to_pos_center_coordinates X) as [|p l] eqn:E;
    [done|exfalso].
  unfold array_to_pos_center_coordinates in E.
  destruct (shape X) as [|h [|w [|? ?]]] eqn:Hshape; try discriminate.
  assert (Hp : p ∈ array_to_pos_center_coordinates X).
  { unfold array_to_pos_center_coordinates. rewrite Hshape, E. left. }
  apply (elem_of_centers X h w Hshape) in Hp as (i & j & _ & _ & _ & Hpos).
  unfold item in Hpos.
  destruct (decide (i * w + j < length (data X))%nat) as [Hlt|Hge].
  - rewrite Forall_forall in Hall.
    specialize (Hall (nth (i * w + j) (data X) 0)).
    assert (nth (i * w + j) (data X) 0 ≤ 0); [|lia].
    apply Hall. apply list_elem_of_In, nth_In. done.
  - rewrite nth_overflow in Hpos by lia. lia.
Qed.

(** ** Cardinalities of finite sets of coordinates *)

Lemma size_list_to_set_le (l : list coord) :
  (size (list_to_set l : gset coord) ≤ length l)%nat.
Proof.
  induction l as [|a l IH]; simpl.
  - done.
  - rewrite size_union_alt, size_singleton.
    assert (Hsub : list_to_set l ∖ {[a]} ⊆ (list_to_set l : gset coord)).
    { intros p Hp. by apply elem_of_difference in Hp as [Hp _]. }
    apply subseteq_size in Hsub. lia.
Qed.

(** Mapping a function over a set cannot create elements. *)
Lemma size_set_map_le (f : coord → coord) (s : gset coord) :
  (size (set_map f s : gset coord) ≤ size s)%nat.
Proof.
  unfold set_map. etrans; [apply size_list_to_set_le|].
  by rewrite length_fmap.
Qed.

(** Mapping an injective function keeps the cardinality. *)
Lemma size_set_map_inj (f : coord → coord) (s : gset coord) :
  (∀ p q, f p = f q → p = q) →
  size (set_map f s : gset coord) = size s.
Proof.
  intros Hinj. unfold set_map. rewrite size_list_to_set.
  - by rewrite length_fmap.
  - apply NoDup_fmap_2_strong; [|apply NoDup_elements].
    intros p q _ _. apply Hinj.
Qed.

(** ** The union of the neighbourhoods *)

Lemma elem_of_foldl_union (l : list (gset coord)) (a : gset coord) (p : coord) :
  p ∈ foldl (∪) a l ↔ p ∈ a ∨ ∃ s, s ∈ l ∧ p ∈ s.
Proof.
  apply (elem_of_foldl_nested (∪) (λ s, s)). intros s b q.
  apply elem_of_union.
Qed.

Lemma elem_of_reduce_union (l : list (gset coord)) :
  l ≠ [] →
  ∃ u, reduce (∪) l = inr u ∧ ∀ p, p ∈ u ↔ ∃ s, s ∈ l ∧ p ∈ s.
Proof.
  destruct l as [|a l]; [done|intros _]. eexists. split; [done|].
  intros p. rewrite elem_of_foldl_union. split.
  - intros [H|(s & Hs & H)].
    + exists a. split; [left|done].
    + exists s. split; [by right|done].
  - intros (s & Hs & H). apply elem_of_cons in Hs as [->|Hs]; [by left|].
    right. by exists s.
Qed.


Lemma all_neighbors_spec cs radius wraparound d :
  cs ≠ [] →
  ∃ u, all_neighbors cs radius wraparound d = inr u ∧
       ∀ p, p ∈ u ↔ covered cs radius wraparound d p.
Proof.
  intros Hne. unfold all_neighbors.
  destruct (elem_of_reduce_union
    ((λ center, manhattan_neighborhood center radius (negb wraparound)
                  (Z.of_nat d.1, Z.of_nat d.2)) <$> cs)) as (u & -> & Hu).
  { by destruct cs. }
  eexists. split; [done|]. intros p. unfold covered.
  rewrite elem_of_union, elem_of_list_to_set, Hu. split.
  - intros [(s & Hs & Hp)|H]; [|by left].
    apply list_elem_of_fmap in Hs as (c & -> & Hc). right. by exists c.
  - intros [H|(c & Hc & Hp)]; [by right|]. left. eexists. split; [|done].
    apply list_elem_of_fmap. by exists c.
Qed.

(** Without a center [reduce] has nothing to start from: this is the case
    that the emptiness test of the function keeps away. *)
Lemma all_neighbors_nil radius wraparound d :
  is_error (all_neighbors [] radius wraparound d).
Proof. done. Qed.

(** What the counting stage returns once some center exists. *)
Lemma count_from_centers_spec cs radius wraparound d :
  cs ≠ [] →
  ∃ u : gset coord,
    all_neighbors cs radius wraparound d = inr u ∧
    (∀ p, p ∈ u ↔ covered cs radius wraparound d p) ∧
    count_from_centers cs radius wraparound d =
      inr (size (if wraparound
                 then set_map (fold_coord (Z.of_nat d.1) (Z.of_nat d.2)) u
                 else u)).
Proof.
  intros Hne.
  destruct (all_neighbors_spec cs radius wraparound d Hne) as (u & Hu & Hin).
  exists u. split; [done|]. split; [done|].
  unfold count_from_centers. rewrite Hu.
  rewrite bool_decide_eq_false_2; [done|].
  by destruct cs.
Qed.

Lemma count_from_centers_nil radius wraparound d :
  count_from_centers [] radius wraparound d = inr 0%nat.
Proof. done. Qed.

(** Inside the grid the folding is the identity. *)
Lemma fold_coord_in_bounds (h w : nat) (p : coord) :
  in_bounds (Z.of_nat h - 1) (Z.of_nat w - 1) p →
  fold_coord (Z.of_nat h) (Z.of_nat w) p = p.
Proof.
  unfold in_bounds, fold_coord, np_mod. destruct p as [x y]; simpl.
  intros [[? ?] [? ?]].
  rewrite !bool_decide_eq_false_2 by lia.
  by rewrite !Z.mod_small by lia.
Qed.

(** On a grid without empty axis the folding lands inside the grid. *)
Lemma fold_coord_lands (h w : nat) (p : coord) :
  (0 < h)%nat → (0 < w)%nat →
  in_bounds (Z.of_nat h - 1) (Z.of_nat w - 1)
    (fold_coord (Z.of_nat h) (Z.of_nat w) p).
Proof.
  intros Hh Hw. unfold in_bounds, fold_coord, np_mod; simpl.
  rewrite !bool_decide_eq_false_2 by lia.
  pose proof (Z.mod_pos_bound p.1 (Z.of_nat h)).
  pose proof (Z.mod_pos_bound p.2 (Z.of_nat w)). lia.
Qed.

(** ** Grids whose neighbourhoods are empty *)

Lemma manhattan_neighborhood_empty c radius prune size :
  radius ≤ 0 → manhattan_neighborhood c radius prune size = ∅.
Proof.
  intros Hr. apply set_eq. intros p.
  rewrite elem_of_manhattan_neighborhood, elem_of_empty. lia.
Qed.

(** With a radius of zero or less only the centers are counted. *)
Lemma count_small_radius (X : ndarray) (h w : nat) radius wraparound :
  radius ≤ 0 → shape X = [h; w] →
  count_positive_neighborhood_size X radius wraparound =
    inr (length (array_to_pos_center_coordinates X)).
Proof.
  intros Hr Hshape. unfold count_positive_neighborhood_size. rewrite Hshape.
  destruct (array_to_pos_center_coordinates X) as [|c0 cs0] eqn:Hcs; [done|].
  rewrite <- Hcs.
  assert (Hne : array_to_pos_center_coordinates X ≠ []) by by rewrite Hcs.
  destruct (count_from_centers_spec _ radius wraparound (h, w) Hne)
    as (u & _ & Hu & ->).
  assert (Heq : u = list_to_set (array_to_pos_center_coordinates X)).
  { apply set_eq. intros p. rewrite Hu, elem_of_list_to_set. unfold covered.
    split; [|by left]. intros [H|(c & _ & H)]; [done|].
    rewrite manhattan_neighborhood_empty in H by done. by inversion H. }
  assert (Hfold :
    set_map (fold_coord (Z.of_nat h) (Z.of_nat w)) u = u).
  { apply set_eq. intros p. rewrite elem_of_map. subst u. split.
    - intros (q & -> & Hq). apply elem_of_list_to_set in Hq.
      pose proof (centers_in_bounds X h w Hshape q Hq) as Hb.
      apply elem_of_list_to_set. by rewrite (fold_coord_in_bounds h w q Hb).
    - intros Hp. exists p. split; [|done].
      apply elem_of_list_to_set in Hp.
      pose proof (centers_in_bounds X h w Hshape p Hp) as Hb.
      by rewrite (fold_coord_in_bounds h w p Hb). }
  f_equal. simpl fst; simpl snd.
  destruct wraparound; rewrite ?Hfold, Heq;
    apply size_list_to_set, (NoDup_centers X h w Hshape).
Qed.

(** ** Claims about [manhattan_neighborhood] *)

(** C1. For a non-negative radius the unpruned neighbourhood of a center is
    exactly the set of coordinates at Manhattan distance [d] from it with
    [0 < d <= radius]: the closed L1 ball without its center. *)
Theorem manhattan_neighborhood_punctured_ball
    (center : coord) (radius : Z) (size : Z * Z) (p : coord) :
  0 ≤ radius →
  p ∈ manhattan_neighborhood center radius false size ↔
  0 < manhattan_distance p center ∧ manhattan_distance p center ≤ radius.
Proof.
  intros _. rewrite elem_of_manhattan_neighborhood. split; [tauto|].
  intros H. split; [done|discriminate].
Qed.

Lemma manhattan_neighborhood_punctured_ball_witness :
  0 ≤ 3 ∧
  ((7, 6) ∈ manhattan_neighborhood (5, 5) 3 false (11, 11) ↔
   0 < manhattan_distance (7, 6) (5, 5) ∧
   manhattan_distance (7, 6) (5, 5) ≤ 3).
Proof.
  split; [lia|].
  apply (manhattan_neighborhood_punctured_ball (5, 5) 3 (11, 11) (7, 6)). lia.
Defined.

(** C5. With pruning, a coordinate is returned exactly when it is generated
    (it belongs to the unpruned neighbourhood) and passes the bounds check
    [0 <= x <= size[0] - 1] and [0 <= y <= size[1] - 1]. *)
Theorem manhattan_neighborhood_prune_bounds
    (center : coord) (radius : Z) (size : Z * Z) (p : coord) :
  p ∈ manhattan_neighborhood center radius true size ↔
  p ∈ manhattan_neighborhood center radius false size ∧
  (0 ≤ p.1 ∧ p.1 ≤ size.1 - 1) ∧ (0 ≤ p.2 ∧ p.2 ≤ size.2 - 1).
Proof.
  rewrite !elem_of_manhattan_neighborhood. unfold in_bounds. split.
  - intros [Hd Hb]. split; [split; [done|discriminate]|]. by apply Hb.
  - intros [[Hd _] Hb]. split; [done|]. by intros _.
Qed.

(** ** Claims about [count_positive_neighborhood_size] *)

(** C2. The function raises exactly when the array is not two-dimensional,
    and the exception is then the [ValueError] of the shape check; neither
    the radius, nor the cell values, nor an empty axis can make it raise. *)
Theorem count_raises_iff_not_two_dimensional
    (X : ndarray) (radius : Z) (wraparound : bool) :
  (is_error (count_positive_neighborhood_size X radius wraparound) ↔
   length (shape X) ≠ 2%nat) ∧
  (∀ e, count_positive_neighborhood_size X radius wraparound = inl e →
        e = ValueError "X must be a 2-dimensional array").
Proof.
  unfold count_positive_neighborhood_size.
  destruct (shape X) as [|d0 [|d1 [|d2 ds]]]; simpl;
    try (split; [split; [intros _; lia|done]|by intros e [= <-]]).
  destruct (array_to_pos_center_coordinates X) as [|c cs] eqn:Hcs.
  - rewrite count_from_centers_nil. simpl.
    split; [split; [done|lia]|discriminate].
  - destruct (count_from_centers_spec (c :: cs) radius wraparound (d0, d1))
      as (u & _ & _ & ->); [done|]. simpl.
    split; [split; [done|lia]|discriminate].
Qed.

(** C3. A two-dimensional grid without any strictly positive cell has count
    zero, whatever the radius and the wraparound setting. *)
Theorem count_zero_without_positive_cell
    (X : ndarray) (radius : Z) (wraparound : bool) :
  length (shape X) = 2%nat →
  Forall (λ v, v ≤ 0) (data X) →
  count_positive_neighborhood_size X radius wraparound = inr 0%nat.
Proof.
  intros Hdim Hall. unfold count_positive_neighborhood_size.
  destruct (shape X) as [|d0 [|d1 [|d2 ds]]]; try discriminate.
  by rewrite (centers_nil_of_nonpositive X Hall).
Qed.

Lemma count_zero_without_positive_cell_witness :
  count_positive_neighborhood_size
    dark_grid 2 true = inr 0%nat.
Proof.
  apply count_zero_without_positive_cell.
  - reflexivity.
  - simpl. repeat constructor; lia.
Defined.

(** C4. With radius zero and no wraparound the count of a two-dimensional
    grid is its number of strictly positive cells. *)
Theorem count_radius_zero_is_positive_cells (X : ndarray) (h w : nat) :
  shape X = [h; w] → wf_ndarray X →
  count_positive_neighborhood_size X 0 false = inr (count_positive X).
Proof.
  intros Hshape Hwf.
  rewrite (count_small_radius X h w 0 false) by done.
  by rewrite (length_centers X h w).
Qed.

Lemma count_radius_zero_is_positive_cells_witness :
  count_positive_neighborhood_size
    sample_grid 0 false =
  inr (count_positive sample_grid).
Proof.
  apply (count_radius_zero_is_positive_cells _ 2 3).
  - reflexivity.
  - reflexivity.
Defined.

(** C9. A negative radius is accepted: every neighbourhood is then empty
    (the offset ranges are), and on a two-dimensional grid the result is the
    one for radius zero, namely the number of strictly positive cells, for
    both wraparound settings. *)
Theorem count_negative_radius_as_zero
    (X : ndarray) (h w : nat) (radius : Z) (wraparound : bool) :
  shape X = [h; w] → wf_ndarray X → radius < 0 →
  range 0 (radius + 1) = [] ∧
  (∀ center prune size,
     manhattan_neighborhood center radius prune size = ∅) ∧
  count_positive_neighborhood_size X radius wraparound =
    count_positive_neighborhood_size X 0 wraparound ∧
  count_positive_neighborhood_size X radius wraparound =
    inr (count_positive X).
Proof.
  intros Hshape Hwf Hr. split; [|split].
  - unfold range. by replace (Z.to_nat (radius + 1 - 0)) with 0%nat by lia.
  - intros center prune size. apply manhattan_neighborhood_empty. lia.
  - rewrite (count_small_radius X h w radius wraparound) by (lia || done).
    rewrite (count_small_radius X h w 0 wraparound) by done.
    by rewrite (length_centers X h w).
Qed.

Lemma count_negative_radius_as_zero_witness :
  range 0 (-5 + 1) = [] ∧
  (∀ center prune size,
     manhattan_neighborhood center (-5) prune size = ∅) ∧
  count_positive_neighborhood_size sample_grid (-5) true =
    count_positive_neighborhood_size sample_grid 0 true ∧
  count_positive_neighborhood_size sample_grid (-5) true =
    inr (count_positive sample_grid).
Proof.
  apply (count_negative_radius_as_zero sample_grid 2 3 (-5) true).
  - reflexivity.
  - reflexivity.
  - lia.
Defined.

(** ** Order of the centers *)

(** The counting stage only looks at which centers are listed, not at the
    order in which they come. *)
Lemma count_from_centers_perm (cs cs' : list coord) radius wraparound d :
  cs ≡ₚ cs' →
  count_from_centers cs radius wraparound d =
  count_from_centers cs' radius wraparound d.
Proof.
  intros Hperm. destruct cs as [|c cs].
  - apply Permutation_nil in Hperm. by subst.
  - assert (Hne : c :: cs ≠ []) by done.
    assert (Hne' : cs' ≠ []).
    { intros ->. symmetry in Hperm. by apply Permutation_nil in Hperm. }
    destruct (count_from_centers_spec _ radius wraparound d Hne)
      as (u & _ & Hu & ->).
    destruct (count_from_centers_spec _ radius wraparound d Hne')
      as (u' & _ & Hu' & ->).
    assert (Heq : u = u'); [|by rewrite Heq].
    apply set_eq. intros p. rewrite Hu, Hu'. unfold covered.
    by setoid_rewrite Hperm.
Qed.

(** C7. The count does not depend on the order in which the positive centers
    are visited: running the union stage on any permutation of the centers
    of a two-dimensional grid gives the result of the function itself. *)
Theorem count_independent_of_center_order
    (X : ndarray) (d0 d1 : nat) (radius : Z) (wraparound : bool)
    (centers : list coord) :
  shape X = [d0; d1] →
  centers ≡ₚ array_to_pos_center_coordinates X →
  count_from_centers centers radius wraparound (d0, d1) =
  count_positive_neighborhood_size X radius wraparound.
Proof.
  intros Hshape Hperm. unfold count_positive_neighborhood_size.
  rewrite Hshape. by apply count_from_centers_perm.
Qed.

Lemma count_independent_of_center_order_witness :
  count_from_centers [(1, 2); (0, 1)] 1 true (2, 3)%nat =
  count_positive_neighborhood_size
    sparse_grid 1 true.
Proof.
  apply count_independent_of_center_order.
  - reflexivity.
  - apply perm_swap.
Defined.

(** ** Toroidal folding *)

(** C6. With wraparound the function folds every coordinate [(x, y)] of the
    unpruned union (centers included) to [(x mod x_max, y mod y_max)], where
    [(x_max, y_max)] is the shape, and counts the folded set; that count is
    at most the cardinality of the unfolded set.  A grid without positive
    cell has no union to fold and counts zero. *)
Theorem wraparound_fold_never_increases
    (X : ndarray) (d0 d1 : nat) (radius : Z) :
  shape X = [d0; d1] →
  (array_to_pos_center_coordinates X = [] ∧
   count_positive_neighborhood_size X radius true = inr 0%nat) ∨
  ∃ unfolded folded : gset coord,
    all_neighbors (array_to_pos_center_coordinates X) radius true (d0, d1)
      = inr unfolded ∧
    (∀ p, p ∈ unfolded ↔
          p ∈ array_to_pos_center_coordinates X ∨
          ∃ c, c ∈ array_to_pos_center_coordinates X ∧
               0 < manhattan_distance p c ∧ manhattan_distance p c ≤ radius) ∧
    (∀ q, q ∈ folded ↔
          ∃ p, p ∈ unfolded ∧
               q = (p.1 `mod` Z.of_nat d0, p.2 `mod` Z.of_nat d1)) ∧
    count_positive_neighborhood_size X radius true = inr (size folded) ∧
    (size folded ≤ size unfolded)%nat.
Proof.
  intros Hshape. unfold count_positive_neighborhood_size. rewrite Hshape.
  destruct (array_to_pos_center_coordinates X) as [|c0 cs0] eqn:Hcs;
    [by left|right].
  rewrite <- Hcs.
  assert (Hne : array_to_pos_center_coordinates X ≠ []) by by rewrite Hcs.
  destruct (count_from_centers_spec _ radius true (d0, d1) Hne)
    as (u & Hall & Hu & ->).
  exists u, (set_map (fold_coord (Z.of_nat d0) (Z.of_nat d1)) u).
  split; [done|]. split; [|split; [|split]].
  - intros p. rewrite Hu. unfold covered.
    setoid_rewrite elem_of_manhattan_neighborhood. simpl negb. split.
    + intros [H|(c & Hc & Hd & _)]; [by left|right; by exists c].
    + intros [H|(c & Hc & Hd)]; [by left|right].
      exists c. split; [done|]. split; [done|discriminate].
  - assert (Hc0 : c0 ∈ array_to_pos_center_coordinates X)
      by (rewrite Hcs; left).
    apply (elem_of_centers X d0 d1 Hshape) in Hc0
      as (i & j & _ & Hi & Hj & _).
    intros q. rewrite elem_of_map. unfold fold_coord, np_mod.
    rewrite !bool_decide_eq_false_2 by lia. split.
    + intros (p & -> & Hp). by exists p.
    + intros (p & Hp & ->). by exists p.
  - done.
  - apply size_set_map_le.
Qed.

Lemma wraparound_fold_never_increases_witness :
  (array_to_pos_center_coordinates strip_grid = [] ∧
   count_positive_neighborhood_size strip_grid 2 true
     = inr 0%nat) ∨
  ∃ unfolded folded : gset coord,
    all_neighbors
      (array_to_pos_center_coordinates strip_grid)
      2 true (1, 3)%nat = inr unfolded ∧
    (∀ p, p ∈ unfolded ↔
          p ∈ array_to_pos_center_coordinates
                strip_grid ∨
          ∃ c, c ∈ array_to_pos_center_coordinates
                     strip_grid ∧
               0 < manhattan_distance p c ∧ manhattan_distance p c ≤ 2) ∧
    (∀ q, q ∈ folded ↔
          ∃ p, p ∈ unfolded ∧
               q = (p.1 `mod` Z.of_nat 1, p.2 `mod` Z.of_nat 3)) ∧
    count_positive_neighborhood_size strip_grid 2 true
      = inr (size folded) ∧
    (size folded ≤ size unfolded)%nat.
Proof.
  apply (wraparound_fold_never_increases strip_grid 1 3 2).
  reflexivity.
Defined.

(** ** Bounds on the count *)


Lemma length_grid_cells h w : length (grid_cells h w) = (h * w)%nat.
Proof.
  unfold grid_cells.
  assert (Hgen : ∀ s,
    length (i ← seq s h;
            (λ j : nat, (Z.of_nat i, Z.of_nat j)) <$> seq 0 w) = (h * w)%nat);
    [|apply Hgen].
  induction h as [|h IH]; intros s; [done|].
  simpl seq. rewrite bind_cons, length_app, length_fmap, length_seq, IH. lia.
Qed.

Lemma elem_of_grid_cells h w (p : coord) :
  in_bounds (Z.of_nat h - 1) (Z.of_nat w - 1) p → p ∈ grid_cells h w.
Proof.
  destruct p as [x y]. unfold in_bounds; simpl. intros [[? ?] [? ?]].
  unfold grid_cells. apply list_elem_of_bind. exists (Z.to_nat x).
  split; [|apply elem_of_seq; lia].
  apply list_elem_of_fmap. exists (Z.to_nat y).
  split; [f_equal; lia|apply elem_of_seq; lia].
Qed.

(** A set of in-bounds coordinates has at most [h * w] elements. *)
Lemma size_in_bounds (h w : nat) (s : gset coord) :
  (∀ p, p ∈ s → in_bounds (Z.of_nat h - 1) (Z.of_nat w - 1) p) →
  (size s ≤ h * w)%nat.
Proof.
  intros Hs. rewrite <- (length_grid_cells h w).
  etrans; [|apply size_list_to_set_le]. apply subseteq_size.
  intros p Hp. apply elem_of_list_to_set, elem_of_grid_cells. by apply Hs.
Qed.

(** Every coordinate collected without wraparound is a cell of the grid. *)
Lemma covered_in_bounds (X : ndarray) (h w : nat) radius (p : coord) :
  shape X = [h; w] →
  covered (array_to_pos_center_coordinates X) radius false (h, w) p →
  in_bounds (Z.of_nat h - 1) (Z.of_nat w - 1) p.
Proof.
  intros Hshape [Hp|(c & _ & Hp)].
  - by apply (centers_in_bounds X h w).
  - apply elem_of_manhattan_neighborhood in Hp as [_ Hb]. by apply Hb.
Qed.

Lemma count_bounds_general
    (X : ndarray) (h w : nat) (radius : Z) (wraparound : bool) :
  shape X = [h; w] →
  ∃ n : nat,
    count_positive_neighborhood_size X radius wraparound = inr n ∧
    (length (array_to_pos_center_coordinates X) ≤ n)%nat ∧ (n ≤ h * w)%nat.
Proof.
  intros Hshape. unfold count_positive_neighborhood_size. rewrite Hshape.
  destruct (array_to_pos_center_coordinates X) as [|c0 cs0] eqn:Hcs.
  { exists 0%nat. rewrite count_from_centers_nil. simpl. split; [done|lia]. }
  rewrite <- Hcs.
  assert (Hc0 : c0 ∈ array_to_pos_center_coordinates X)
    by (rewrite Hcs; left).
  apply (elem_of_centers X h w Hshape) in Hc0 as (i & j & _ & Hi & Hj & _).
  assert (Hne : array_to_pos_center_coordinates X ≠ []) by by rewrite Hcs.
  destruct (count_from_centers_spec _ radius wraparound (h, w) Hne)
    as (u & _ & Hu & ->).
  eexists. split; [done|]. simpl fst; simpl snd. split.
  - rewrite <- (size_list_to_set (C := gset coord)
                  (array_to_pos_center_coordinates X))
      by apply (NoDup_centers X h w Hshape).
    apply subseteq_size. intros p Hp. apply elem_of_list_to_set in Hp.
    assert (Hpu : p ∈ u) by (apply Hu; by left).
    destruct wraparound; [|done].
    apply elem_of_map. exists p. split; [|done].
    symmetry. apply fold_coord_in_bounds.
    by apply (centers_in_bounds X h w).
  - apply size_in_bounds. intros p Hp. destruct wraparound.
    + apply elem_of_map in Hp as (q & -> & _).
      apply fold_coord_lands; lia.
    + apply (covered_in_bounds X h w radius p Hshape). by apply Hu.
Qed.

(** C10. On a two-dimensional grid with [h >= 1] rows and [w >= 1] columns,
    for a non-negative radius and either wraparound setting, the function
    returns a count between the number of strictly positive cells and
    [h * w]. *)
Theorem count_between_positive_cells_and_area
    (X : ndarray) (h w : nat) (radius : Z) (wraparound : bool) :
  shape X = [h; w] → wf_ndarray X →
  (1 ≤ h)%nat → (1 ≤ w)%nat → 0 ≤ radius →
  ∃ n : nat,
    count_positive_neighborhood_size X radius wraparound = inr n ∧
    (count_positive X ≤ n)%nat ∧ (n ≤ h * w)%nat.
Proof.
  intros Hshape Hwf _ _ _.
  destruct (count_bounds_general X h w radius wraparound Hshape)
    as (n & Hn & Hlo & Hhi).
  exists n. rewrite <- (length_centers X h w) by done. done.
Qed.

Lemma count_between_positive_cells_and_area_witness :
  ∃ n : nat,
    count_positive_neighborhood_size
      sample_grid 1 true = inr n ∧
    (count_positive sample_grid ≤ n)%nat ∧
    (n ≤ 2 * 3)%nat.
Proof.
  apply (count_between_positive_cells_and_area _ 2 3).
  - reflexivity.
  - reflexivity.
  - lia.
  - lia.
  - lia.
Defined.

(** ** Transposition *)


Lemma nth_blocks (f : nat → nat → Z) (h w s j i : nat) :
  (j < w)%nat → (i < h)%nat →
  nth (j * h + i) (j' ← seq s w; f j' <$> seq 0 h) 0 = f (s + j)%nat i.
Proof.
  revert s j. induction w as [|w IH]; intros s j Hj Hi; [lia|].
  simpl seq. rewrite bind_cons. destruct j as [|j].
  - rewrite app_nth1 by (rewrite length_fmap, length_seq; lia).
    rewrite Nat.add_0_r. simpl.
    rewrite nth_lookup, list_lookup_fmap, lookup_seq_lt by done. done.
  - replace (S j * h + i)%nat
      with (length (f s <$> seq 0 h) + (j * h + i))%nat
      by (rewrite length_fmap, length_seq; lia).
    rewrite app_nth2_plus, IH by lia. f_equal. lia.
Qed.

Lemma item_transpose (X : ndarray) (h w i j : nat) :
  shape X = [h; w] → (i < h)%nat → (j < w)%nat →
  item (transpose X) h j i = item X w i j.
Proof.
  intros Hshape Hi Hj. unfold transpose. rewrite Hshape.
  unfold item at 1. simpl data.
  by rewrite (nth_blocks (λ j' i', item X w i' j') h w 0 j i).
Qed.

Lemma shape_transpose (X : ndarray) (h w : nat) :
  shape X = [h; w] → shape (transpose X) = [w; h].
Proof. intros Hshape. unfold transpose. by rewrite Hshape. Qed.

(** The positive cells of the transpose are the transposed positive cells. *)
Lemma centers_transpose (X : ndarray) (h w : nat) (p : coord) :
  shape X = [h; w] →
  p ∈ array_to_pos_center_coordinates (transpose X) ↔
  swap_coord p ∈ array_to_pos_center_coordinates X.
Proof.
  intros Hshape.
  rewrite (elem_of_centers (transpose X) w h (shape_transpose X h w Hshape)).
  rewrite (elem_of_centers X h w Hshape). unfold swap_coord. split.
  - intros (j & i & -> & Hj & Hi & Hpos). exists i, j.
    rewrite <- (item_transpose X h w i j) by done. done.
  - intros (i & j & Heq & Hi & Hj & Hpos). exists j, i.
    rewrite (item_transpose X h w i j) by done.
    destruct p as [a b]. simpl in Heq. inversion Heq; subst. done.
Qed.

Lemma swap_coord_involutive (p : coord) : swap_coord (swap_coord p) = p.
Proof. by destruct p. Qed.

Lemma manhattan_neighborhood_swap (c p : coord) radius prune (size : Z * Z) :
  p ∈ manhattan_neighborhood c radius prune size ↔
  swap_coord p ∈
    manhattan_neighborhood (swap_coord c) radius prune (size.2, size.1).
Proof.
  rewrite !elem_of_manhattan_neighborhood.
  unfold manhattan_distance, in_bounds, swap_coord. simpl.
  split; (intros [Hd Hb]; split; [lia|intros Hp; specialize (Hb Hp); lia]).
Qed.

(** Without wraparound the count of any two-dimensional grid is the count
    of its transpose. *)
Lemma count_transpose (X : ndarray) (h w : nat) (radius : Z) :
  shape X = [h; w] →
  count_positive_neighborhood_size (transpose X) radius false =
  count_positive_neighborhood_size X radius false.
Proof.
  intros Hshape. pose proof (shape_transpose X h w Hshape) as Hshape'.
  unfold count_positive_neighborhood_size. rewrite Hshape, Hshape'.
  pose proof (λ p, centers_transpose X h w p Hshape) as Hcs.
  destruct (array_to_pos_center_coordinates X) as [|c cs] eqn:E;
    destruct (array_to_pos_center_coordinates (transpose X))
      as [|c' cs'] eqn:E'.
  - done.
  - exfalso. specialize (Hcs c'). rewrite elem_of_nil in Hcs.
    apply Hcs. left.
  - exfalso. specialize (Hcs (swap_coord c)).
    rewrite elem_of_nil, swap_coord_involutive in Hcs. apply Hcs. left.
  - rewrite <- E, <- E' in *.
    assert (Hne : array_to_pos_center_coordinates X ≠ []) by by rewrite E.
    assert (Hne' : array_to_pos_center_coordinates (transpose X) ≠ [])
      by by rewrite E'.
    clear E E'.
    destruct (count_from_centers_spec _ radius false (h, w) Hne)
      as (u & _ & Hu & ->).
    destruct (count_from_centers_spec _ radius false (w, h) Hne')
      as (u' & _ & Hu' & ->).
    f_equal.
    assert (Heq : u' = set_map swap_coord u).
    { apply set_eq. intros p. rewrite elem_of_map, Hu'. unfold covered.
      split.
      - intros Hp. exists (swap_coord p).
        split; [by rewrite swap_coord_involutive|].
        apply Hu. destruct Hp as [Hp|(c0 & Hc0 & Hp)].
        + left. by apply Hcs.
        + right. exists (swap_coord c0). split; [by apply Hcs|].
          by apply manhattan_neighborhood_swap in Hp.
      - intros (q & -> & Hq). apply Hu in Hq as [Hq|(c0 & Hc0 & Hq)].
        + left. apply Hcs. by rewrite swap_coord_involutive.
        + right. exists (swap_coord c0).
          split; [apply Hcs; by rewrite swap_coord_involutive|].
          by apply manhattan_neighborhood_swap in Hq. }
    rewrite Heq. apply size_set_map_inj.
    intros p q Hpq.
    by rewrite <- (swap_coord_involutive p), Hpq, swap_coord_involutive.
Qed.

(** C8. For a square two-dimensional grid and any radius, without
    wraparound, the transposed grid has the same count as the grid; the
    positive cells of the transposed grid are the positive cells of the
    grid with their two coordinates exchanged. *)
Theorem count_square_transpose_invariant
    (X : ndarray) (n : nat) (radius : Z) :
  shape X = [n; n] →
  count_positive_neighborhood_size (transpose X) radius false =
    count_positive_neighborhood_size X radius false ∧
  (∀ p, p ∈ array_to_pos_center_coordinates (transpose X) ↔
        (p.2, p.1) ∈ array_to_pos_center_coordinates X).
Proof.
  intros Hshape. split.
  - by apply (count_transpose X n n).
  - intros p. by apply (centers_transpose X n n).
Qed.

Lemma count_square_transpose_invariant_witness :
  count_positive_neighborhood_size (transpose corner_grid) 1 false =
    count_positive_neighborhood_size corner_grid 1 false ∧
  (∀ p, p ∈ array_to_pos_center_coordinates (transpose corner_grid) ↔
        (p.2, p.1) ∈ array_to_pos_center_coordinates corner_grid).
Proof.
  apply (count_square_transpose_invariant corner_grid 3 1).
  reflexivity.
Defined.


(** ** Further properties of the extraction of the centers *)

(** X1. On a two-dimensional array the extracted coordinates are exactly the
    index pairs [(i, j)], [i] below the first extent and [j] below the
    second, whose cell is strictly positive; in particular every center
    lies inside the grid. *)
Theorem centers_are_the_positive_cells (X : ndarray) (h w : nat) (p : coord) :
  shape X = [h; w] →
  p ∈ array_to_pos_center_coordinates X ↔
  (0 ≤ p.1 ∧ p.1 < Z.of_nat h) ∧ (0 ≤ p.2 ∧ p.2 < Z.of_nat w) ∧
  0 < item X w (Z.to_nat p.1) (Z.to_nat p.2).
Proof.
  intros Hshape. rewrite (elem_of_centers X h w Hshape). split.
  - intros (i & j & -> & Hi & Hj & Hpos). simpl.
    rewrite !Nat2Z.id. split; [lia|]. split; [lia|done].
  - intros ([? ?] & [? ?] & Hpos).
    exists (Z.to_nat p.1), (Z.to_nat p.2). destruct p as [x y]; simpl in *.
    split; [f_equal; lia|]. split; [lia|]. split; [lia|done].
Qed.

Lemma centers_are_the_positive_cells_witness :
  (1, 2) ∈ array_to_pos_center_coordinates sample_grid ↔
  (0 ≤ 1 ∧ 1 < Z.of_nat 2) ∧ (0 ≤ 2 ∧ 2 < Z.of_nat 3) ∧
  0 < item sample_grid 3 (Z.to_nat 1) (Z.to_nat 2).
Proof.
  apply (centers_are_the_positive_cells sample_grid 2 3 (1, 2)).
  reflexivity.
Defined.

(** Sortedness of the lists that the extraction is built from. *)
Lemma StronglySorted_seq_lt (s n : nat) : StronglySorted lt (seq s n).
Proof.
  revert s. induction n as [|n IH]; intros s; simpl; constructor.
  - apply IH.
  - apply Forall_forall. intros k Hk. apply elem_of_seq in Hk. lia.
Qed.

Lemma StronglySorted_filter {A} (R : relation A) (P : A → Prop)
    `{!∀ a, Decision (P a)} (l : list A) :
  StronglySorted R l → StronglySorted R (filter P l).
Proof.
  induction 1 as [|a l Hl IH Hall]; [constructor|].
  rewrite filter_cons. destruct (decide (P a)); [|done].
  constructor; [done|]. apply Forall_forall. intros b Hb.
  apply list_elem_of_filter in Hb as [_ Hb].
  rewrite Forall_forall in Hall. by apply Hall.
Qed.

Lemma StronglySorted_bind {A B} (R1 : relation A) (R2 : relation B)
    (f : A → list B) (l : list A) :
  StronglySorted R1 l →
  (∀ a, a ∈ l → StronglySorted R2 (f a)) →
  (∀ a1 a2 b1 b2, R1 a1 a2 → b1 ∈ f a1 → b2 ∈ f a2 → R2 b1 b2) →
  StronglySorted R2 (l ≫= f).
Proof.
  intros Hl Hin Hcross. induction Hl as [|a l Hl IH Hall]; [constructor|].
  rewrite bind_cons. apply StronglySorted_app_2.
  - intros b1 b2 Hb1 Hb2. apply list_elem_of_bind in Hb2 as (a2 & Hb2 & Ha2).
    rewrite Forall_forall in Hall. by apply (Hcross a a2); [apply Hall|..].
  - apply Hin. left.
  - apply IH. intros a' Ha'. apply Hin. by right.
Qed.

(** X2. The centers of a two-dimensional array come out without repetition
    and in row-major order: strictly increasing for the lexicographic order
    on [(row, column)]. *)
Theorem centers_row_major_without_repetition (X : ndarray) (h w : nat) :
  shape X = [h; w] →
  NoDup (array_to_pos_center_coordinates X) ∧
  StronglySorted row_major_lt (array_to_pos_center_coordinates X).
Proof.
  intros Hshape. split; [by apply (NoDup_centers X h w)|].
  unfold array_to_pos_center_coordinates. rewrite Hshape.
  apply (StronglySorted_bind lt).
  - apply StronglySorted_seq_lt.
  - intros i _. apply (StronglySorted_fmap _ lt).
    + intros j1 j2 Hj. right. simpl. split; [done|lia].
    + apply StronglySorted_filter, StronglySorted_seq_lt.
  - intros i1 i2 p1 p2 Hi Hp1 Hp2.
    apply list_elem_of_fmap in Hp1 as (j1 & -> & _).
    apply list_elem_of_fmap in Hp2 as (j2 & -> & _).
    left. simpl. lia.
Qed.

Lemma centers_row_major_without_repetition_witness :
  NoDup (array_to_pos_center_coordinates sample_grid) ∧
  StronglySorted row_major_lt (array_to_pos_center_coordinates sample_grid).
Proof.
  apply (centers_row_major_without_repetition sample_grid 2 3).
  reflexivity.
Defined.

(** ** The counted cells *)

Lemma count_from_centers_counted cs radius wraparound d :
  cs ≠ [] →
  ∃ F : gset coord,
    count_from_centers cs radius wraparound d = inr (size F) ∧
    ∀ p, p ∈ F ↔ counted cs radius wraparound d p.
Proof.
  intros Hne.
  destruct (count_from_centers_spec cs radius wraparound d Hne)
    as (u & _ & Hu & ->).
  eexists. split; [done|]. intros p. unfold counted. destruct wraparound.
  - rewrite elem_of_map. split.
    + intros (q & -> & Hq). exists q. split; [by apply Hu|done].
    + intros (q & Hq & ->). exists q. split; [done|by apply Hu].
  - apply Hu.
Qed.

Lemma count_from_centers_total cs radius wraparound d :
  ∃ n, count_from_centers cs radius wraparound d = inr n.
Proof.
  destruct cs as [|c cs]; [by exists 0%nat|].
  destruct (count_from_centers_counted (c :: cs) radius wraparound d)
    as (F & -> & _); [done|]. by eexists.
Qed.

Lemma covered_mono cs cs' radius radius' wraparound d (p : coord) :
  (∀ c, c ∈ cs → c ∈ cs') → radius ≤ radius' →
  covered cs radius wraparound d p → covered cs' radius' wraparound d p.
Proof.
  intros Hsub Hr [Hp|(c & Hc & Hp)]; [left; by apply Hsub|right].
  exists c. split; [by apply Hsub|].
  apply elem_of_manhattan_neighborhood in Hp as [[Hd1 Hd2] Hb].
  apply elem_of_manhattan_neighborhood. split; [lia|done].
Qed.

Lemma counted_mono cs cs' radius radius' wraparound d (p : coord) :
  (∀ c, c ∈ cs → c ∈ cs') → radius ≤ radius' →
  counted cs radius wraparound d p → counted cs' radius' wraparound d p.
Proof.
  intros Hsub Hr. unfold counted. destruct wraparound.
  - intros (q & Hq & ->). exists q. split; [|done].
    by apply (covered_mono cs cs' radius radius').
  - by apply covered_mono.
Qed.

(** More centers or a larger radius can only add counted cells. *)
Lemma count_from_centers_mono cs cs' radius radius' wraparound d :
  (∀ c, c ∈ cs → c ∈ cs') → radius ≤ radius' →
  ∃ n n' : nat,
    count_from_centers cs radius wraparound d = inr n ∧
    count_from_centers cs' radius' wraparound d = inr n' ∧
    (n ≤ n')%nat.
Proof.
  intros Hsub Hr. destruct cs as [|c cs].
  - destruct (count_from_centers_total cs' radius' wraparound d) as (n' & ->).
    exists 0%nat, n'. split; [done|]. split; [done|lia].
  - assert (Hne' : cs' ≠ []).
    { intros ->. specialize (Hsub c). rewrite elem_of_nil in Hsub.
      apply Hsub. left. }
    destruct (count_from_centers_counted (c :: cs) radius wraparound d)
      as (F & -> & HF); [done|].
    destruct (count_from_centers_counted cs' radius' wraparound d Hne')
      as (F' & -> & HF').
    exists (size F), (size F'). split; [done|]. split; [done|].
    apply subseteq_size. intros p Hp. apply HF'.
    apply (counted_mono (c :: cs) cs' radius radius'); [done..|].
    by apply HF.
Qed.

(** ** Further properties of [manhattan_neighborhood] *)

(** X3. A neighbourhood never contains its own center, whatever the radius,
    the pruning flag and the size. *)
Theorem manhattan_neighborhood_excludes_center
    (center : coord) (radius : Z) (prune : bool) (size : Z * Z) :
  center ∉ manhattan_neighborhood center radius prune size.
Proof.
  rewrite elem_of_manhattan_neighborhood. unfold manhattan_distance. lia.
Qed.

(** X4. Unpruned neighbourhoods are symmetric: [p] is in the neighbourhood
    of [c] exactly when [c] is in the neighbourhood of [p]. *)
Theorem manhattan_neighborhood_symmetric
    (c p : coord) (radius : Z) (size size' : Z * Z) :
  p ∈ manhattan_neighborhood c radius false size ↔
  c ∈ manhattan_neighborhood p radius false size'.
Proof.
  rewrite !elem_of_manhattan_neighborhood. unfold manhattan_distance.
  split; (intros [Hd _]; split; [lia|discriminate]).
Qed.

(** X5. A neighbourhood grows with the radius: for [radius <= radius'] the
    neighbourhood of radius [radius] is included in the one of radius
    [radius'], with the same pruning. *)
Theorem manhattan_neighborhood_monotone
    (center : coord) (radius radius' : Z) (prune : bool) (size : Z * Z) :
  radius ≤ radius' →
  manhattan_neighborhood center radius prune size ⊆
  manhattan_neighborhood center radius' prune size.
Proof.
  intros Hr p. rewrite !elem_of_manhattan_neighborhood.
  intros [[Hd1 Hd2] Hb]. split; [lia|done].
Qed.

Lemma manhattan_neighborhood_monotone_witness :
  manhattan_neighborhood (5, 1) 2 true (11, 11) ⊆
  manhattan_neighborhood (5, 1) 3 true (11, 11).
Proof.
  apply (manhattan_neighborhood_monotone (5, 1) 2 3 true (11, 11)). lia.
Defined.

(** ** Further properties of [count_positive_neighborhood_size] *)

(** X6. The count never decreases when the radius grows, for either
    wraparound setting. *)
Theorem count_monotone_in_radius
    (X : ndarray) (radius radius' : Z) (wraparound : bool) :
  length (shape X) = 2%nat → radius ≤ radius' →
  ∃ n n' : nat,
    count_positive_neighborhood_size X radius wraparound = inr n ∧
    count_positive_neighborhood_size X radius' wraparound = inr n' ∧
    (n ≤ n')%nat.
Proof.
  intros Hdim Hr. unfold count_positive_neighborhood_size.
  destruct (shape X) as [|h [|w [|? ?]]]; try discriminate.
  by apply count_from_centers_mono.
Qed.

Lemma count_monotone_in_radius_witness :
  ∃ n n' : nat,
    count_positive_neighborhood_size sample_grid 1 true = inr n ∧
    count_positive_neighborhood_size sample_grid 4 true = inr n' ∧
    (n ≤ n')%nat.
Proof.
  apply (count_monotone_in_radius sample_grid 1 4 true).
  - reflexivity.
  - lia.
Defined.

(** X7. Turning more cells positive never decreases the count: if every
    strictly positive cell of [X] is strictly positive in [Y], a grid of the
    same shape, the count of [X] is at most the count of [Y]. *)
Theorem count_monotone_in_positive_cells
    (X Y : ndarray) (h w : nat) (radius : Z) (wraparound : bool) :
  shape X = [h; w] → shape Y = [h; w] →
  (∀ i j, (i < h)%nat → (j < w)%nat →
          0 < item X w i j → 0 < item Y w i j) →
  ∃ n n' : nat,
    count_positive_neighborhood_size X radius wraparound = inr n ∧
    count_positive_neighborhood_size Y radius wraparound = inr n' ∧
    (n ≤ n')%nat.
Proof.
  intros HX HY Hpos. unfold count_positive_neighborhood_size.
  rewrite HX, HY. apply count_from_centers_mono; [|lia].
  intros c Hc. apply (elem_of_centers X h w HX) in Hc
    as (i & j & -> & Hi & Hj & Hc).
  apply (elem_of_centers Y h w HY). exists i, j.
  split; [done|]. split; [done|]. split; [done|]. by apply Hpos.
Qed.

Lemma count_monotone_in_positive_cells_witness :
  ∃ n n' : nat,
    count_positive_neighborhood_size sparse_grid 1 false = inr n ∧
    count_positive_neighborhood_size sample_grid 1 false = inr n' ∧
    (n ≤ n')%nat.
Proof.
  apply (count_monotone_in_positive_cells sparse_grid sample_grid 2 3).
  - reflexivity.
  - reflexivity.
  - intros [|[|i]] [|[|[|j]]] Hi Hj; vm_compute; (congruence || lia).
Defined.

(** X8. Only the sign test matters: two grids of the same shape whose cells
    are strictly positive at the same places have the same count, whatever
    the values are. *)
Theorem count_ignores_values
    (X Y : ndarray) (h w : nat) (radius : Z) (wraparound : bool) :
  shape X = [h; w] → shape Y = [h; w] →
  (∀ i j, (i < h)%nat → (j < w)%nat →
          0 < item X w i j ↔ 0 < item Y w i j) →
  count_positive_neighborhood_size X radius wraparound =
  count_positive_neighborhood_size Y radius wraparound.
Proof.
  intros HX HY Hpos. unfold count_positive_neighborhood_size.
  rewrite HX, HY.
  destruct (count_from_centers_mono
              (array_to_pos_center_coordinates X)
              (array_to_pos_center_coordinates Y)
              radius radius wraparound (h, w)) as (n & n' & Hn & Hn' & Hle);
    [|lia|].
  { intros c Hc. apply (elem_of_centers X h w HX) in Hc
      as (i & j & -> & Hi & Hj & Hc).
    apply (elem_of_centers Y h w HY). exists i, j.
    split; [done|]. split; [done|]. split; [done|]. by apply Hpos. }
  destruct (count_from_centers_mono
              (array_to_pos_center_coordinates Y)
              (array_to_pos_center_coordinates X)
              radius radius wraparound (h, w)) as (m & m' & Hm & Hm' & Hge);
    [|lia|].
  { intros c Hc. apply (elem_of_centers Y h w HY) in Hc
      as (i & j & -> & Hi & Hj & Hc).
    apply (elem_of_centers X h w HX). exists i, j.
    split; [done|]. split; [done|]. split; [done|]. by apply Hpos. }
  rewrite Hn, Hn'. rewrite Hn in Hm'. rewrite Hn' in Hm.
  inversion Hm; inversion Hm'; subst. f_equal. lia.
Qed.

Lemma count_ignores_values_witness :
  count_positive_neighborhood_size sample_grid 2 true =
  count_positive_neighborhood_size gray_grid 2 true.
Proof.
  apply (count_ignores_values sample_grid gray_grid 2 3).
  - reflexivity.
  - reflexivity.
  - intros [|[|i]] [|[|[|j]]] Hi Hj; vm_compute;
      (split; intros; (congruence || lia)).
Defined.

(** X9. Wrapping around never counts fewer cells than pruning: on a
    two-dimensional grid the count without wraparound is at most the count
    with wraparound. *)
Theorem count_pruned_at_most_wrapped (X : ndarray) (radius : Z) :
  length (shape X) = 2%nat →
  ∃ n n' : nat,
    count_positive_neighborhood_size X radius false = inr n ∧
    count_positive_neighborhood_size X radius true = inr n' ∧
    (n ≤ n')%nat.
Proof.
  intros Hdim. unfold count_positive_neighborhood_size.
  destruct (shape X) as [|h [|w [|? ?]]] eqn:Hshape; try discriminate.
  destruct (array_to_pos_center_coordinates X) as [|c0 cs0] eqn:Hcs.
  { exists 0%nat, 0%nat. by rewrite !count_from_centers_nil. }
  rewrite <- Hcs.
  assert (Hne : array_to_pos_center_coordinates X ≠ []) by by rewrite Hcs.
  destruct (count_from_centers_counted _ radius false (h, w) Hne)
    as (F & -> & HF).
  destruct (count_from_centers_counted _ radius true (h, w) Hne)
    as (F' & -> & HF').
  exists (size F), (size F'). split; [done|]. split; [done|].
  apply subseteq_size. intros p Hp. apply HF in Hp. apply HF'.
  unfold counted in *. exists p. split.
  - destruct Hp as [Hp|(c & Hc & Hp)]; [by left|right].
    exists c. split; [done|].
    apply elem_of_manhattan_neighborhood in Hp as [Hd _].
    apply elem_of_manhattan_neighborhood. split; [done|discriminate].
  - symmetry. apply fold_coord_in_bounds.
    by apply (covered_in_bounds X h w radius p Hshape).
Qed.

Lemma count_pruned_at_most_wrapped_witness :
  ∃ n n' : nat,
    count_positive_neighborhood_size sample_grid 1 false = inr n ∧
    count_positive_neighborhood_size sample_grid 1 true = inr n' ∧
    (n ≤ n')%nat.
Proof.
  apply (count_pruned_at_most_wrapped sample_grid 1). reflexivity.
Defined.

Lemma filter_length_zero_Forall (l : list Z) :
  length (filter (λ v, 0 < v) l) = 0%nat → Forall (λ v, v ≤ 0) l.
Proof.
  induction l as [|a l IH]; [constructor|].
  rewrite filter_cons. destruct (decide (0 < a)); simpl; [lia|].
  intros Hl. constructor; [lia|by apply IH].
Qed.

(** X10. The count is zero only for a grid without positive cell: on a
    two-dimensional grid, a result of zero is equivalent to every cell
    being at most zero. *)
Theorem count_zero_iff_no_positive_cell
    (X : ndarray) (h w : nat) (radius : Z) (wraparound : bool) :
  shape X = [h; w] → wf_ndarray X →
  count_positive_neighborhood_size X radius wraparound = inr 0%nat ↔
  Forall (λ v, v ≤ 0) (data X).
Proof.
  intros Hshape Hwf. split.
  - intros Hzero.
    destruct (count_bounds_general X h w radius wraparound Hshape)
      as (n & Hn & Hlo & _).
    rewrite Hzero in Hn. inversion Hn; subst n.
    apply filter_length_zero_Forall.
    rewrite (length_centers X h w Hshape Hwf) in Hlo.
    unfold count_positive in Hlo. lia.
  - intros Hall. unfold count_positive_neighborhood_size. rewrite Hshape.
    by rewrite (centers_nil_of_nonpositive X Hall).
Qed.

Lemma count_zero_iff_no_positive_cell_witness :
  count_positive_neighborhood_size dark_grid 3 true = inr 0%nat ↔
  Forall (λ v, v ≤ 0) (data dark_grid).
Proof.
  apply (count_zero_iff_no_positive_cell dark_grid 2 3).
  - reflexivity.
  - reflexivity.
Defined.

(** X11. A two-dimensional array with an empty axis is accepted: it has no
    center, so the function returns zero at its emptiness test, before any
    remainder by a zero extent could be taken. *)
Theorem count_zero_on_empty_axis
    (X : ndarray) (h w : nat) (radius : Z) (wraparound : bool) :
  shape X = [h; w] → h = 0%nat ∨ w = 0%nat →
  array_to_pos_center_coordinates X = [] ∧
  count_positive_neighborhood_size X radius wraparound = inr 0%nat.
Proof.
  intros Hshape Hempty.
  assert (Hcs : array_to_pos_center_coordinates X = []).
  { destruct (array_to_pos_center_coordinates X) as [|c cs] eqn:E; [done|].
    assert (Hc : c ∈ array_to_pos_center_coordinates X) by (rewrite E; left).
    apply (elem_of_centers X h w Hshape) in Hc as (i & j & _ & Hi & Hj & _).
    lia. }
  split; [done|]. unfold count_positive_neighborhood_size.
  by rewrite Hshape, Hcs.
Qed.

Lemma count_zero_on_empty_axis_witness :
  array_to_pos_center_coordinates hollow_grid = [] ∧
  count_positive_neighborhood_size hollow_grid 2 true = inr 0%nat.
Proof.
  apply (count_zero_on_empty_axis hollow_grid 0 4).
  - reflexivity.
  - left. reflexivity.
Defined.

(** ** Saturation *)

Lemma NoDup_grid_cells h w : NoDup (grid_cells h w).
Proof.
  unfold grid_cells. apply NoDup_bind.
  - intros i1 i2 p _ _ H1 H2.
    apply list_elem_of_fmap in H1 as (j1 & -> & _).
    apply list_elem_of_fmap in H2 as (j2 & Heq & _).
    inversion Heq. lia.
  - intros i _. apply NoDup_fmap_2_strong; [|apply NoDup_seq].
    intros j1 j2 _ _ Heq. inversion Heq. lia.
  - apply NoDup_seq.
Qed.

Lemma grid_cells_in_bounds h w (p : coord) :
  p ∈ grid_cells h w → in_bounds (Z.of_nat h - 1) (Z.of_nat w - 1) p.
Proof.
  unfold grid_cells. intros (i & Hp & Hi)%list_elem_of_bind.
  apply list_elem_of_fmap in Hp as (j & -> & Hj).
  apply elem_of_seq in Hi, Hj. unfold in_bounds; simpl. lia.
Qed.

(** X12. Once the radius reaches [h + w - 2], the largest Manhattan distance
    between two cells, a single positive cell is enough for the whole grid to
    be counted, with or without wraparound. *)
Theorem count_saturates
    (X : ndarray) (h w : nat) (radius : Z) (wraparound : bool) :
  shape X = [h; w] →
  (∃ i j, (i < h)%nat ∧ (j < w)%nat ∧ 0 < item X w i j) →
  Z.of_nat h + Z.of_nat w - 2 ≤ radius →
  count_positive_neighborhood_size X radius wraparound = inr (h * w)%nat.
Proof.
  intros Hshape (i & j & Hi & Hj & Hpos) Hr.
  assert (Hc0 : (Z.of_nat i, Z.of_nat j) ∈ array_to_pos_center_coordinates X).
  { apply (elem_of_centers X h w Hshape). by exists i, j. }
  assert (Hne : array_to_pos_center_coordinates X ≠ []).
  { intros E. rewrite E in Hc0. by apply elem_of_nil in Hc0. }
  unfold count_positive_neighborhood_size. rewrite Hshape.
  destruct (count_from_centers_counted _ radius wraparound (h, w) Hne)
    as (F & -> & HF).
  f_equal. rewrite <- (length_grid_cells h w).
  rewrite <- (size_list_to_set (C := gset coord) (grid_cells h w))
    by apply NoDup_grid_cells.
  f_equal. apply set_eq. intros p. rewrite HF, elem_of_list_to_set.
  assert (Hin : in_bounds (Z.of_nat h - 1) (Z.of_nat w - 1) p →
                covered (array_to_pos_center_coordinates X) radius
                  wraparound (h, w) p).
  { intros Hb. destruct (decide (p = (Z.of_nat i, Z.of_nat j))) as [->|Hp].
    - by left.
    - right. exists (Z.of_nat i, Z.of_nat j). split; [done|].
      apply elem_of_manhattan_neighborhood.
      destruct p as [a b]. unfold in_bounds in Hb. simpl in Hb.
      unfold manhattan_distance. simpl.
      split; [|by intros _].
      assert (a ≠ Z.of_nat i ∨ b ≠ Z.of_nat j).
      { destruct (decide (a = Z.of_nat i)) as [->|]; [|by left].
        right. intros ->. by apply Hp. }
      lia. }
  split.
  - intros Hp. apply elem_of_grid_cells. unfold counted in Hp.
    destruct wraparound.
    + destruct Hp as (q & _ & ->). apply (fold_coord_lands h w q); lia.
    + by apply (covered_in_bounds X h w radius p Hshape).
  - intros Hp%grid_cells_in_bounds. unfold counted. destruct wraparound.
    + exists p. split; [by apply Hin|].
      symmetry. by apply fold_coord_in_bounds.
    + by apply Hin.
Qed.

Lemma count_saturates_witness :
  count_positive_neighborhood_size sample_grid 3 false = inr (2 * 3)%nat.
Proof.
  apply (count_saturates sample_grid 2 3 3 false).
  - reflexivity.
  - exists 0%nat, 1%nat. split; [lia|]. split; [lia|reflexivity].
  - lia.
Defined.

(** ** The number of points of a neighbourhood *)

Lemma elem_of_unpruned (c p : coord) radius size :
  p ∈ manhattan_neighborhood c radius false size ↔
  0 < manhattan_distance p c ∧ manhattan_distance p c ≤ radius.
Proof.
  rewrite elem_of_manhattan_neighborhood. split; [tauto|].
  intros H. split; [done|discriminate].
Qed.

Lemma elem_of_sphere_points (c p : coord) (r : nat) :
  p ∈ sphere_points c r ↔
  manhattan_distance p c = Z.of_nat r ∧ (0 < r)%nat.
Proof.
  unfold sphere_points, manhattan_distance. rewrite list_elem_of_bind.
  destruct p as [a b], c as [x y]; simpl. split.
  - intros (k & Hp & Hk). apply elem_of_seq in Hk.
    rewrite !elem_of_cons, elem_of_nil in Hp.
    destruct Hp as [H|[H|[H|[H|[]]]]]; inversion H; subst; lia.
  - intros [Hd Hr].
    destruct (Z_lt_le_dec 0 (b - y)) as [Hb|Hb];
      destruct (Z_lt_le_dec 0 (a - x)) as [Ha|Ha].
    + exists (Z.to_nat (a - x)). split; [|apply elem_of_seq; lia].
      rewrite !elem_of_cons. left. f_equal; lia.
    + destruct (decide (a = x)) as [->|Hne].
      * exists 0%nat. split; [|apply elem_of_seq; lia].
        rewrite !elem_of_cons. left. f_equal; lia.
      * exists (Z.to_nat (b - y)). split; [|apply elem_of_seq; lia].
        rewrite !elem_of_cons. do 3 right. left. f_equal; lia.
    + exists (Z.to_nat (y - b)). split; [|apply elem_of_seq; lia].
      rewrite !elem_of_cons. right. left. f_equal; lia.
    + destruct (decide (b = y)) as [->|Hne].
      * exists 0%nat. split; [|apply elem_of_seq; lia].
        rewrite !elem_of_cons. do 3 right. left. f_equal; lia.
      * exists (Z.to_nat (x - a)). split; [|apply elem_of_seq; lia].
        rewrite !elem_of_cons. do 2 right. left. f_equal; lia.
Qed.

Lemma NoDup_sphere_points (c : coord) (r : nat) : NoDup (sphere_points c r).
Proof.
  unfold sphere_points. apply NoDup_bind.
  - intros k1 k2 q Hk1 Hk2 H1 H2. apply elem_of_seq in Hk1, Hk2.
    rewrite !elem_of_cons, elem_of_nil in H1, H2.
    destruct H1 as [->|[->|[->|[->|[]]]]];
      destruct H2 as [H|[H|[H|[H|[]]]]]; inversion H; lia.
  - intros k Hk. apply elem_of_seq in Hk.
    repeat (apply NoDup_cons; split;
            [rewrite ?elem_of_cons, elem_of_nil;
             intros H; repeat destruct H as [H|H]; try done;
             inversion H; lia|]).
    apply NoDup_nil_2.
  - apply NoDup_seq.
Qed.

Lemma length_bind_const {A B} (f : A → list B) (k : nat) (l : list A) :
  (∀ a, length (f a) = k) → length (l ≫= f) = (length l * k)%nat.
Proof.
  intros Hf. induction l as [|a l IH]; [done|].
  rewrite bind_cons, length_app, Hf, IH. simpl. lia.
Qed.

Lemma length_sphere_points (c : coord) (r : nat) :
  length (sphere_points c r) = (4 * r)%nat.
Proof.
  unfold sphere_points. rewrite (length_bind_const _ 4%nat) by done.
  rewrite length_seq. lia.
Qed.

(** The punctured ball grows by one sphere at a time. *)
Lemma size_unpruned (c : coord) (n : nat) (size0 : Z * Z) :
  size (manhattan_neighborhood c (Z.of_nat n) false size0) =
  (2 * n * (n + 1))%nat.
Proof.
  induction n as [|n IH].
  - by rewrite manhattan_neighborhood_empty.
  - assert (Hsplit :
      manhattan_neighborhood c (Z.of_nat (S n)) false size0 =
      manhattan_neighborhood c (Z.of_nat n) false size0 ∪
      list_to_set (sphere_points c (S n))).
    { apply set_eq. intros p.
      rewrite elem_of_union, !elem_of_unpruned, elem_of_list_to_set,
        elem_of_sphere_points. lia. }
    rewrite Hsplit, size_union.
    + rewrite IH, size_list_to_set by apply NoDup_sphere_points.
      rewrite length_sphere_points. lia.
    + intros p Hp Hs. apply elem_of_unpruned in Hp.
      apply elem_of_list_to_set, elem_of_sphere_points in Hs. lia.
Qed.

(** X13. For a non-negative radius [r] the unpruned neighbourhood has
    exactly [2 r (r + 1)] points. *)
Theorem manhattan_neighborhood_size
    (center : coord) (radius : Z) (size0 : Z * Z) :
  0 ≤ radius →
  Z.of_nat (size (manhattan_neighborhood center radius false size0)) =
  2 * radius * (radius + 1).
Proof.
  intros Hr. rewrite <- (Z2Nat.id radius Hr) at 1.
  rewrite size_unpruned. nia.
Qed.

Lemma manhattan_neighborhood_size_witness :
  Z.of_nat (size (manhattan_neighborhood (5, 5) 3 false (11, 11))) =
  2 * 3 * (3 + 1).
Proof.
  apply (manhattan_neighborhood_size (5, 5) 3 (11, 11)). lia.
Defined.

(** A set covered by [length cs] sets of at most [k] elements each. *)
Lemma size_cover (g : coord → gset coord) (k : nat) (cs : list coord)
    (s : gset coord) :
  (∀ c, (size (g c) ≤ k)%nat) →
  (∀ p, p ∈ s → ∃ c, c ∈ cs ∧ p ∈ g c) →
  (size s ≤ length cs * k)%nat.
Proof.
  intros Hk. revert s. induction cs as [|a cs IH]; intros s Hcov.
  - assert (Hs : s = ∅).
    { apply set_eq. intros p. rewrite elem_of_empty. split; [|done].
      intros Hp. destruct (Hcov p Hp) as (c & Hc & _).
      by apply elem_of_nil in Hc. }
    by rewrite Hs.
  - assert (Hsub : s ⊆ g a ∪ (s ∖ g a)).
    { intros p Hp. destruct (decide (p ∈ g a)); [by apply elem_of_union_l|].
      apply elem_of_union_r. by apply elem_of_difference. }
    apply subseteq_size in Hsub. rewrite size_union in Hsub.
    + assert (Hrest : (size (s ∖ g a) ≤ length cs * k)%nat).
      { apply IH. intros p Hp. apply elem_of_difference in Hp as [Hp Hn].
        destruct (Hcov p Hp) as (c & Hc & Hpc).
        apply elem_of_cons in Hc as [->|Hc]; [done|]. by exists c. }
      specialize (Hk a). simpl. lia.
    + intros p Hp Hd. by apply elem_of_difference in Hd as [_ Hd].
Qed.

(** A center together with its unpruned neighbourhood: the closed ball. *)
Lemma size_closed_ball (c : coord) (n : nat) (size0 : Z * Z) :
  size ({[c]} ∪ manhattan_neighborhood c (Z.of_nat n) false size0) =
  (2 * n * (n + 1) + 1)%nat.
Proof.
  rewrite size_union, size_singleton, size_unpruned; [lia|].
  intros p Hp Hn. apply elem_of_singleton in Hp as ->.
  apply elem_of_unpruned in Hn. unfold manhattan_distance in Hn. lia.
Qed.

(** Folding leaves a set of in-bounds coordinates as it is. *)
Lemma set_map_fold_in_bounds (h w : nat) (u : gset coord) :
  (∀ p, p ∈ u → in_bounds (Z.of_nat h - 1) (Z.of_nat w - 1) p) →
  set_map (fold_coord (Z.of_nat h) (Z.of_nat w)) u = u.
Proof.
  intros Hb. apply set_eq. intros p. rewrite elem_of_map. split.
  - intros (q & -> & Hq). by rewrite (fold_coord_in_bounds h w q (Hb q Hq)).
  - intros Hp. exists p. split; [|done].
    by rewrite (fold_coord_in_bounds h w p (Hb p Hp)).
Qed.

(** X14. For a non-negative radius [r] the count is at most the number of
    strictly positive cells times [2 r (r + 1) + 1], the number of points of
    one closed ball. *)
Theorem count_at_most_centers_times_ball
    (X : ndarray) (h w : nat) (radius : Z) (wraparound : bool) :
  shape X = [h; w] → wf_ndarray X → 0 ≤ radius →
  ∃ n : nat,
    count_positive_neighborhood_size X radius wraparound = inr n ∧
    Z.of_nat n ≤
      Z.of_nat (count_positive X) * (2 * radius * (radius + 1) + 1).
Proof.
  intros Hshape Hwf Hr.
  rewrite <- (length_centers X h w Hshape Hwf).
  unfold count_positive_neighborhood_size. rewrite Hshape.
  destruct (array_to_pos_center_coordinates X) as [|c0 cs0] eqn:Hcs.
  { exists 0%nat. rewrite count_from_centers_nil. split; [done|]. simpl. lia. }
  rewrite <- Hcs.
  assert (Hne : array_to_pos_center_coordinates X ≠ []) by by rewrite Hcs.
  destruct (count_from_centers_spec _ radius wraparound (h, w) Hne)
    as (u & _ & Hu & ->).
  eexists. split; [done|].
  set (cs := array_to_pos_center_coordinates X) in *.
  set (n := Z.to_nat radius).
  assert (Hn : radius = Z.of_nat n) by (unfold n; lia).
  assert (Hsize : (size u ≤ length cs * (2 * n * (n + 1) + 1))%nat).
  { apply (size_cover
             (λ c, {[c]} ∪ manhattan_neighborhood c (Z.of_nat n) false
                            (Z.of_nat h, Z.of_nat w))).
    - intros c. by rewrite size_closed_ball.
    - intros p Hp. apply Hu in Hp as [Hp|(c & Hc & Hp)].
      + exists p. split; [done|]. by apply elem_of_union_l, elem_of_singleton.
      + exists c. split; [done|]. apply elem_of_union_r.
        rewrite <- Hn. apply elem_of_manhattan_neighborhood in Hp as [Hd _].
        by apply elem_of_unpruned. }
  assert (Hfold :
    (size (if wraparound
           then set_map (fold_coord (Z.of_nat (h, w).1) (Z.of_nat (h, w).2)) u
           else u) ≤ size u)%nat).
  { destruct wraparound; [apply size_set_map_le|done]. }
  nia.
Qed.

Lemma count_at_most_centers_times_ball_witness :
  ∃ n : nat,
    count_positive_neighborhood_size sample_grid 1 true = inr n ∧
    Z.of_nat n ≤ Z.of_nat (count_positive sample_grid) * (2 * 1 * (1 + 1) + 1).
Proof.
  apply (count_at_most_centers_times_ball sample_grid 2 3 1 true).
  - reflexivity.
  - reflexivity.
  - lia.
Defined.

(** X15. A grid whose only positive cell lies at least [r] cells away from
    every edge counts exactly [2 r (r + 1) + 1] cells for the radius [r],
    with or without wraparound. *)
Theorem count_single_interior_center
    (X : ndarray) (h w : nat) (i j radius : Z) (wraparound : bool) :
  shape X = [h; w] →
  array_to_pos_center_coordinates X = [(i, j)] →
  0 ≤ radius →
  radius ≤ i → i + radius ≤ Z.of_nat h - 1 →
  radius ≤ j → j + radius ≤ Z.of_nat w - 1 →
  count_positive_neighborhood_size X radius wraparound =
    inr (Z.to_nat (2 * radius * (radius + 1) + 1)).
Proof.
  intros Hshape Hcs Hr Hi1 Hi2 Hj1 Hj2.
  unfold count_positive_neighborhood_size. rewrite Hshape, Hcs.
  destruct (count_from_centers_spec [(i, j)] radius wraparound (h, w))
    as (u & _ & Hu & ->); [done|].
  set (n := Z.to_nat radius).
  assert (Hn : radius = Z.of_nat n) by (unfold n; lia).
  assert (Heq : u = {[(i, j)]} ∪
                    manhattan_neighborhood (i, j) (Z.of_nat n) false
                      (Z.of_nat h, Z.of_nat w)).
  { apply set_eq. intros p.
    rewrite Hu, elem_of_union, elem_of_singleton, elem_of_unpruned.
    unfold covered. rewrite list_elem_of_singleton. split.
    - intros [Hp|(c & Hc & Hp)]; [by left|right].
      apply list_elem_of_singleton in Hc as ->.
      apply elem_of_manhattan_neighborhood in Hp as [Hd _]. lia.
    - intros [Hp|Hd]; [by left|right]. exists (i, j).
      split; [by apply list_elem_of_singleton|].
      apply elem_of_manhattan_neighborhood. split; [lia|]. intros _.
      destruct p as [a b]. unfold manhattan_distance in Hd.
      unfold in_bounds. simpl in *. lia. }
  assert (Hb : ∀ p, p ∈ u → in_bounds (Z.of_nat h - 1) (Z.of_nat w - 1) p).
  { intros p. rewrite Heq, elem_of_union, elem_of_singleton, elem_of_unpruned.
    destruct p as [a b]. unfold manhattan_distance, in_bounds. simpl.
    intros [[= -> ->]|Hd]; lia. }
  f_equal. simpl fst; simpl snd.
  assert (Hsz : size u = (2 * n * (n + 1) + 1)%nat)
    by (rewrite Heq; apply size_closed_ball).
  destruct wraparound; rewrite ?(set_map_fold_in_bounds h w u Hb), Hsz; nia.
Qed.

Lemma count_single_interior_center_witness :
  count_positive_neighborhood_size lone_grid 2 true =
    inr (Z.to_nat (2 * 2 * (2 + 1) + 1)).
Proof.
  apply (count_single_interior_center lone_grid 5 5 2 2 2 true).
  - reflexivity.
  - reflexivity.
  - lia.
  - lia.
  - lia.
  - lia.
  - lia.
Defined.

(** ** Transposition of rectangular grids *)

Lemma fold_coord_swap (a b : Z) (q : coord) :
  fold_coord a b (swap_coord q) = swap_coord (fold_coord b a q).
Proof. done. Qed.

Lemma covered_swap (cs cs' : list coord) radius wraparound (h w : nat)
    (p : coord) :
  (∀ q, q ∈ cs' ↔ swap_coord q ∈ cs) →
  covered cs' radius wraparound (w, h) p ↔
  covered cs radius wraparound (h, w) (swap_coord p).
Proof.
  intros Hcs. unfold covered. simpl fst; simpl snd. split.
  - intros [Hp|(c & Hc & Hp)]; [left; by apply Hcs|right].
    exists (swap_coord c). split; [by apply Hcs|].
    by apply manhattan_neighborhood_swap in Hp.
  - intros [Hp|(c & Hc & Hp)]; [left; by apply Hcs|right].
    exists (swap_coord c).
    split; [apply Hcs; by rewrite swap_coord_involutive|].
    apply manhattan_neighborhood_swap in Hp.
    by rewrite swap_coord_involutive in Hp.
Qed.

Lemma counted_swap (cs cs' : list coord) radius wraparound (h w : nat)
    (p : coord) :
  (∀ q, q ∈ cs' ↔ swap_coord q ∈ cs) →
  counted cs' radius wraparound (w, h) p ↔
  counted cs radius wraparound (h, w) (swap_coord p).
Proof.
  intros Hcs. unfold counted. destruct wraparound; simpl fst; simpl snd.
  - split.
    + intros (q & Hq & ->). exists (swap_coord q).
      split; [by apply (covered_swap cs cs')|].
      by rewrite fold_coord_swap.
    + intros (q & Hq & Hp). exists (swap_coord q). split.
      * apply (covered_swap cs cs'); [done|].
        by rewrite swap_coord_involutive.
      * rewrite fold_coord_swap, <- Hp. by rewrite swap_coord_involutive.
  - by apply covered_swap.
Qed.

(** X16. Transposing a two-dimensional grid, square or not, does not change
    its count, with or without wraparound. *)
Theorem count_transpose_invariant
    (X : ndarray) (radius : Z) (wraparound : bool) :
  length (shape X) = 2%nat →
  count_positive_neighborhood_size (transpose X) radius wraparound =
  count_positive_neighborhood_size X radius wraparound.
Proof.
  intros Hdim.
  destruct (shape X) as [|h [|w [|? ?]]] eqn:Hshape; try discriminate.
  pose proof (shape_transpose X h w Hshape) as Hshape'.
  unfold count_positive_neighborhood_size. rewrite Hshape, Hshape'.
  pose proof (λ p, centers_transpose X h w p Hshape) as Hcs.
  destruct (array_to_pos_center_coordinates X) as [|c cs] eqn:E;
    destruct (array_to_pos_center_coordinates (transpose X))
      as [|c' cs'] eqn:E'.
  - done.
  - exfalso. specialize (Hcs c'). rewrite elem_of_nil in Hcs.
    apply Hcs. left.
  - exfalso. specialize (Hcs (swap_coord c)).
    rewrite elem_of_nil, swap_coord_involutive in Hcs. apply Hcs. left.
  - rewrite <- E, <- E' in *.
    assert (Hne : array_to_pos_center_coordinates X ≠ []) by by rewrite E.
    assert (Hne' : array_to_pos_center_coordinates (transpose X) ≠ [])
      by by rewrite E'.
    clear E E'.
    destruct (count_from_centers_counted _ radius wraparound (h, w) Hne)
      as (F & -> & HF).
    destruct (count_from_centers_counted _ radius wraparound (w, h) Hne')
      as (F' & -> & HF').
    f_equal.
    assert (Heq : F' = set_map swap_coord F).
    { apply set_eq. intros p. rewrite elem_of_map, HF'.
      rewrite (counted_swap _ _ radius wraparound h w p Hcs). split.
      - intros Hp. exists (swap_coord p).
        split; [by rewrite swap_coord_involutive|by apply HF].
      - intros (q & -> & Hq). rewrite swap_coord_involutive. by apply HF. }
    rewrite Heq. apply size_set_map_inj.
    intros p q Hpq.
    by rewrite <- (swap_coord_involutive p), Hpq, swap_coord_involutive.
Qed.

Lemma count_transpose_invariant_witness :
  count_positive_neighborhood_size (transpose sample_grid) 1 true =
  count_positive_neighborhood_size sample_grid 1 true.
Proof.
  apply (count_transpose_invariant sample_grid 1 true). reflexivity.
Defined.

(** ** Grids built from a list of centers *)

Lemma length_foldl_insert {A} (f : A → nat) (cs : list A) (buf : list Z) :
  length (foldl (λ b c, <[f c := 1]> b) buf cs) = length buf.
Proof.
  revert buf. induction cs as [|a cs IH]; intros buf; [done|].
  simpl. by rewrite IH, length_insert.
Qed.

Lemma nth_foldl_insert {A} (f : A → nat) (cs : list A) (buf : list Z)
    (k : nat) :
  (k < length buf)%nat →
  0 < nth k (foldl (λ b c, <[f c := 1]> b) buf cs) 0 ↔
  0 < nth k buf 0 ∨ ∃ c, c ∈ cs ∧ f c = k.
Proof.
  revert buf. induction cs as [|a cs IH]; intros buf Hk; simpl.
  - split; [by left|]. intros [H|(c & Hc & _)]; [done|].
    by apply elem_of_nil in Hc.
  - rewrite IH by by rewrite length_insert.
    rewrite (nth_lookup (<[f a := 1]> buf)).
    destruct (decide (f a = k)) as [<-|Hne].
    + rewrite list_lookup_insert_eq by done. simpl. split.
      * intros _. right. exists a. split; [left|done].
      * intros _. left. lia.
    + rewrite list_lookup_insert_ne by done. rewrite <- nth_lookup. split.
      * intros [H|(c & Hc & Hf)]; [by left|].
        right. exists c. split; [by right|done].
      * intros [H|(c & Hc & Hf)]; [by left|].
        apply elem_of_cons in Hc as [->|Hc]; [done|].
        right. by exists c.
Qed.

(** What [centers_to_array] builds from in-range centers. *)
Lemma centers_to_array_centers
    (centers : list (nat * nat)) (width height : nat) :
  (∀ c, c ∈ centers → (c.1 < height)%nat ∧ (c.2 < width)%nat) →
  shape (centers_to_array centers width height) = [height; width] ∧
  wf_ndarray (centers_to_array centers width height) ∧
  ∀ i j : nat,
    (Z.of_nat i, Z.of_nat j) ∈
      array_to_pos_center_coordinates (centers_to_array centers width height)
    ↔ (i, j) ∈ centers.
Proof.
  intros Hrange. split; [done|]. split.
  { unfold wf_ndarray, centers_to_array. simpl.
    rewrite length_foldl_insert, length_replicate. lia. }
  intros i j.
  rewrite (elem_of_centers (centers_to_array centers width height)
             height width eq_refl). split.
  - intros (i' & j' & Heq & Hi & Hj & Hpos).
    assert (i' = i ∧ j' = j) as [-> ->] by (inversion Heq; lia).
    unfold item, centers_to_array in Hpos. simpl in Hpos.
    apply nth_foldl_insert in Hpos; [|rewrite length_replicate; nia].
    destruct Hpos as [Hpos|(c & Hc & Hf)].
    + rewrite nth_lookup, lookup_replicate_2 in Hpos by nia. simpl in Hpos.
      lia.
    + destruct (Hrange c Hc) as [Hc1 Hc2]. destruct c as [c1 c2].
      simpl in *. assert (c1 = i) by nia. subst c1.
      assert (c2 = j) by lia. by subst c2.
  - intros Hc. destruct (Hrange _ Hc) as [Hi Hj]. simpl in Hi, Hj.
    exists i, j. split; [done|]. split; [done|]. split; [done|].
    unfold item, centers_to_array. simpl.
    apply nth_foldl_insert; [rewrite length_replicate; nia|].
    right. by exists (i, j).
Qed.

(** X17. Extracting the centers of the grid built by [centers_to_array] from
    in-range centers gives back exactly those centers; the grid has the shape
    [(height, width)] and a buffer of that size. *)
Theorem centers_to_array_round_trip
    (centers : list (nat * nat)) (width height : nat) :
  (∀ c, c ∈ centers → (c.1 < height)%nat ∧ (c.2 < width)%nat) →
  shape (centers_to_array centers width height) = [height; width] ∧
  wf_ndarray (centers_to_array centers width height) ∧
  ∀ i j : nat,
    (Z.of_nat i, Z.of_nat j) ∈
      array_to_pos_center_coordinates (centers_to_array centers width height)
    ↔ (i, j) ∈ centers.
Proof.
  intros Hrange.
  destruct (centers_to_array_centers centers width height Hrange)
    as (Hshape & Hwf & Hmem).
  split; [exact Hshape|]. split; [exact Hwf|]. intros i j. apply Hmem.
Qed.

Lemma centers_to_array_round_trip_witness :
  shape (centers_to_array [(7, 3); (6, 5)]%nat 11 11) = [11; 11]%nat ∧
  wf_ndarray (centers_to_array [(7, 3); (6, 5)]%nat 11 11) ∧
  ∀ i j : nat,
    (Z.of_nat i, Z.of_nat j) ∈
      array_to_pos_center_coordinates
        (centers_to_array [(7, 3); (6, 5)]%nat 11 11)
    ↔ (i, j) ∈ [(7, 3); (6, 5)]%nat.
Proof.
  apply (centers_to_array_round_trip [(7, 3); (6, 5)]%nat 11 11).
  intros c Hc. rewrite !elem_of_cons, elem_of_nil in Hc.
  destruct Hc as [->|[->|[]]]; simpl; lia.
Defined.

(** X18. The count of the grid built from a list of in-range centers is the
    count that the union stage computes from that list directly, in any
    order and with any repetition. *)
Theorem count_of_centers_to_array
    (centers : list (nat * nat)) (width height : nat)
    (radius : Z) (wraparound : bool) :
  (∀ c, c ∈ centers → (c.1 < height)%nat ∧ (c.2 < width)%nat) →
  count_positive_neighborhood_size
    (centers_to_array centers width height) radius wraparound =
  count_from_centers
    ((λ c : nat * nat, (Z.of_nat c.1, Z.of_nat c.2)) <$> centers)
    radius wraparound (height, width).
Proof.
  intros Hrange.
  destruct (centers_to_array_centers centers width height Hrange)
    as (Hshape & _ & Hmem).
  unfold count_positive_neighborhood_size. rewrite Hshape.
  set (cs := array_to_pos_center_coordinates
               (centers_to_array centers width height)) in *.
  set (cs' := (λ c : nat * nat, (Z.of_nat c.1, Z.of_nat c.2)) <$> centers).
  assert (Hsame : ∀ p, p ∈ cs ↔ p ∈ cs').
  { intros p. unfold cs'. rewrite list_elem_of_fmap. split.
    - intros Hp. pose proof Hp as Hp'.
      apply (elem_of_centers _ height width Hshape) in Hp'
        as (i & j & -> & _ & _ & _).
      exists (i, j). split; [done|]. by apply Hmem.
    - intros ([i j] & -> & Hc). by apply Hmem. }
  destruct (count_from_centers_mono cs cs' radius radius wraparound
              (height, width)) as (n & n' & Hn & Hn' & Hle);
    [intros c; apply Hsame|lia|].
  destruct (count_from_centers_mono cs' cs radius radius wraparound
              (height, width)) as (m & m' & Hm & Hm' & Hge);
    [intros c; apply Hsame|lia|].
  rewrite Hn, Hn'. rewrite Hn in Hm'. rewrite Hn' in Hm.
  inversion Hm; inversion Hm'; subst. f_equal. lia.
Qed.

Lemma count_of_centers_to_array_witness :
  count_positive_neighborhood_size
    (centers_to_array [(7, 3); (6, 5); (7, 3)]%nat 11 11) 2 false =
  count_from_centers
    ((λ c : nat * nat, (Z.of_nat c.1, Z.of_nat c.2)) <$>
       [(7, 3); (6, 5); (7, 3)]%nat)
    2 false (11, 11)%nat.
Proof.
  apply (count_of_centers_to_array [(7, 3); (6, 5); (7, 3)]%nat 11 11).
  intros c Hc. rewrite !elem_of_cons, elem_of_nil in Hc.
  destruct Hc as [->|[->|[->|[]]]]; simpl; lia.
Defined.

(** ** Centers far from each other and from the edges *)

(** The size of a union of pairwise disjoint sets of [k] elements. *)
Lemma size_disjoint_cover (g : coord → gset coord) (k : nat)
    (cs : list coord) (s : gset coord) :
  NoDup cs →
  (∀ c1 c2, c1 ∈ cs → c2 ∈ cs → c1 ≠ c2 → g c1 ## g c2) →
  (∀ c, c ∈ cs → size (g c) = k) →
  (∀ p, p ∈ s ↔ ∃ c, c ∈ cs ∧ p ∈ g c) →
  size s = (length cs * k)%nat.
Proof.
  intros Hnd. revert s. induction Hnd as [|a cs Ha Hnd IH];
    intros s Hdisj Hk Hs.
  - assert (Hs' : s = ∅).
    { apply set_eq. intros p. rewrite Hs, elem_of_empty. split; [|done].
      intros (c & Hc & _). by apply elem_of_nil in Hc. }
    by rewrite Hs'.
  - assert (Hsplit : s = g a ∪ (s ∖ g a)).
    { apply set_eq. intros p. rewrite elem_of_union, elem_of_difference.
      split.
      - intros Hp. destruct (decide (p ∈ g a)); [by left|by right].
      - intros [Hp|[Hp _]]; [|done]. apply Hs. exists a. split; [left|done]. }
    rewrite Hsplit, size_union.
    + rewrite (Hk a) by left. rewrite (IH (s ∖ g a)); [simpl; lia|..].
      * intros c1 c2 H1 H2. apply Hdisj; by right.
      * intros c Hc. apply Hk. by right.
      * intros p. rewrite elem_of_difference, Hs. split.
        -- intros [(c & Hc & Hp) Hn].
           apply elem_of_cons in Hc as [->|Hc]; [done|]. by exists c.
        -- intros (c & Hc & Hp). split.
           ++ exists c. split; [by right|done].
           ++ intros Hpa.
              assert (Hd : g a ## g c).
              { apply Hdisj; [left|by right|]. by intros ->. }
              rewrite elem_of_disjoint in Hd. by apply (Hd p).
    + intros p Hp Hd. by apply elem_of_difference in Hd as [_ Hd].
Qed.

(** X19. When every positive cell lies at least [r] cells away from every
    edge and any two positive cells are more than [2 r] apart, the closed
    balls neither leave the grid nor overlap, and the count is the number
    of positive cells times [2 r (r + 1) + 1], with or without wraparound. *)
Theorem count_separated_interior_centers
    (X : ndarray) (h w : nat) (radius : Z) (wraparound : bool) :
  shape X = [h; w] → wf_ndarray X → 0 ≤ radius →
  (∀ c, c ∈ array_to_pos_center_coordinates X →
        (radius ≤ c.1 ∧ c.1 + radius ≤ Z.of_nat h - 1) ∧
        (radius ≤ c.2 ∧ c.2 + radius ≤ Z.of_nat w - 1)) →
  (∀ c1 c2, c1 ∈ array_to_pos_center_coordinates X →
            c2 ∈ array_to_pos_center_coordinates X →
            c1 ≠ c2 → 2 * radius < manhattan_distance c1 c2) →
  count_positive_neighborhood_size X radius wraparound =
    inr (count_positive X * Z.to_nat (2 * radius * (radius + 1) + 1))%nat.
Proof.
  intros Hshape Hwf Hr Hinner Hfar.
  rewrite <- (length_centers X h w Hshape Hwf).
  unfold count_positive_neighborhood_size. rewrite Hshape.
  destruct (array_to_pos_center_coordinates X) as [|c0 cs0] eqn:Hcs; [done|].
  rewrite <- Hcs in *.
  assert (Hne : array_to_pos_center_coordinates X ≠ []) by by rewrite Hcs.
  clear Hcs.
  destruct (count_from_centers_spec _ radius wraparound (h, w) Hne)
    as (u & _ & Hu & ->).
  set (cs := array_to_pos_center_coordinates X) in *.
  set (n := Z.to_nat radius).
  assert (Hn : radius = Z.of_nat n) by (unfold n; lia).
  set (g := λ c : coord,
         ({[c]} ∪ manhattan_neighborhood c (Z.of_nat n) false
                    (Z.of_nat h, Z.of_nat w) : gset coord)).
  assert (Hcov : ∀ p, p ∈ u ↔ ∃ c, c ∈ cs ∧ p ∈ g c).
  { intros p. rewrite Hu. unfold covered, g. split.
    - intros [Hp|(c & Hc & Hp)].
      + exists p. split; [done|]. by apply elem_of_union_l, elem_of_singleton.
      + exists c. split; [done|]. apply elem_of_union_r, elem_of_unpruned.
        apply elem_of_manhattan_neighborhood in Hp as [Hd _]. lia.
    - intros (c & Hc & Hp). apply elem_of_union in Hp as [Hp|Hp].
      + apply elem_of_singleton in Hp as ->. by left.
      + right. exists c. split; [done|]. apply elem_of_unpruned in Hp.
        apply elem_of_manhattan_neighborhood. split; [lia|]. intros _.
        destruct (Hinner c Hc) as [[? ?] [? ?]].
        destruct p as [a b], c as [x y].
        unfold manhattan_distance in Hp. unfold in_bounds. simpl in *. lia. }
  assert (Hb : ∀ p, p ∈ u → in_bounds (Z.of_nat h - 1) (Z.of_nat w - 1) p).
  { intros p Hp. apply Hcov in Hp as (c & Hc & Hp).
    destruct (Hinner c Hc) as [[? ?] [? ?]].
    unfold g in Hp. rewrite elem_of_union, elem_of_singleton,
      elem_of_unpruned in Hp.
    destruct p as [a b], c as [x y].
    unfold manhattan_distance, in_bounds in *. simpl in *.
    destruct Hp as [[= -> ->]|Hd]; lia. }
  assert (Hsz : size u = (length cs * (2 * n * (n + 1) + 1))%nat).
  { apply (size_disjoint_cover g).
    - apply (NoDup_centers X h w Hshape).
    - intros c1 c2 H1 H2 Hne12 p Hp1 Hp2.
      specialize (Hfar c1 c2 H1 H2 Hne12).
      unfold g in Hp1, Hp2.
      rewrite elem_of_union, elem_of_singleton, elem_of_unpruned in Hp1, Hp2.
      destruct p as [a b], c1 as [x1 y1], c2 as [x2 y2].
      unfold manhattan_distance in *. simpl in *.
      destruct Hp1 as [[= -> ->]|Hd1]; destruct Hp2 as [[= -> ->]|Hd2];
        lia.
    - intros c _. apply size_closed_ball.
    - done. }
  f_equal. simpl fst; simpl snd.
  destruct wraparound; rewrite ?(set_map_fold_in_bounds h w u Hb), Hsz; nia.
Qed.

Lemma count_separated_interior_centers_witness :
  count_positive_neighborhood_size pair_grid 1 true =
    inr (count_positive pair_grid * Z.to_nat (2 * 1 * (1 + 1) + 1))%nat.
Proof.
  apply (count_separated_interior_centers pair_grid 3 7 1 true).
  - reflexivity.
  - reflexivity.
  - lia.
  - intros c Hc.
    change (array_to_pos_center_coordinates pair_grid)
      with [(1, 1); (1, 5)] in Hc.
    rewrite !elem_of_cons, elem_of_nil in Hc.
    destruct Hc as [->|[->|[]]]; simpl; lia.
  - intros c1 c2 H1 H2.
    change (array_to_pos_center_coordinates pair_grid)
      with [(1, 1); (1, 5)] in H1, H2.
    rewrite !elem_of_cons, elem_of_nil in H1, H2.
    destruct H1 as [->|[->|[]]]; destruct H2 as [->|[->|[]]];
      intros Hne; try done; vm_compute; reflexivity.
Defined.
